(** * Trial selection, size equalisation and sampling in
      [nips2018/movie/parameters.py]

    A shallow embedding of the partitioning-and-sampling logic of
    [parameters.py]: [StimulusTypeMixin.get_constraint], the
    [shrink_to_same_size] block and the sampler selection of
    [StimulusTypeMixin.get_loaders], the samplers
    [SubsetSequentialSampler] and [BalancedSubsetSampler], and the group
    assignment of [DataConfig.AreaLayerSplitRawInputResponse.load_data].

    Conventions.  Python exceptions are values of [exn] and a computation
    that may raise has type [result A].  A numpy boolean vector is a
    [list bool]; binary numpy operators follow the broadcasting rule for
    one-dimensional arrays.  Python [str] is [string] (ASCII).  Calls to
    the logger ([self.msg]) are left out unless evaluating their arguments
    can raise. *)

From Stdlib Require Import String Ascii List ZArith Lia Bool Arith QArith.
From Stdlib Require Import Sorted.
Import ListNotations.
Local Open Scope list_scope.
Local Open Scope nat_scope.

(* ===================================================================== *)
(** * Python primitives *)
(* ===================================================================== *)

Module Py.

(** The exceptions the modelled code can raise. *)
Inductive exn : Set :=
| ValueError
| AssertionError
| IndexError
| UnboundLocalError
| AttributeError
| ZeroDivisionError.

Inductive result (A : Type) : Type :=
| Ok (a : A)
| Raise (e : exn).

Arguments Ok {A} a.
Arguments Raise {A} e.

Definition bind {A B : Type} (r : result A) (k : A -> result B) : result B :=
  match r with
  | Ok a => k a
  | Raise e => Raise e
  end.

(** A list comprehension whose body may raise: elements are evaluated left
    to right and the first exception aborts the comprehension. *)
Fixpoint mapM {A B : Type} (f : A -> result B) (l : list A) : result (list B) :=
  match l with
  | [] => Ok []
  | x :: r =>
      bind (f x) (fun y => bind (mapM f r) (fun ys => Ok (y :: ys)))
  end.

(** [zip(a, b)] consumed with a two-argument function. *)
Fixpoint zip_with {A B C : Type} (f : A -> B -> C) (a : list A) (b : list B)
  : list C :=
  match a, b with
  | x :: a', y :: b' => f x y :: zip_with f a' b'
  | _, _ => []
  end.

(** ** [str] *)

(** [str.isspace] on ASCII: TAB, LF, VT, FF, CR, FS, GS, RS, US and SPACE. *)
Definition is_space (c : ascii) : bool :=
  let n := nat_of_ascii c in
  ((9 <=? n) && (n <=? 13)) || ((28 <=? n) && (n <=? 32)).

Fixpoint lstrip (s : string) : string :=
  match s with
  | EmptyString => EmptyString
  | String c r => if is_space c then lstrip r else s
  end.

Fixpoint rstrip (s : string) : string :=
  match s with
  | EmptyString => EmptyString
  | String c r =>
      let r' := rstrip r in
      if is_space c && String.eqb r' EmptyString then EmptyString
      else String c r'
  end.

(** [s.strip()] *)
Definition strip (s : string) : string := rstrip (lstrip s).

(** [s.split(sep)] for a one-character separator: never the empty list. *)
Fixpoint split (sep : ascii) (s : string) : list string :=
  match s with
  | EmptyString => [EmptyString]
  | String c r =>
      if Ascii.eqb c sep then EmptyString :: split sep r
      else match split sep r with
           | t :: ts => String c t :: ts
           | [] => [String c EmptyString]
           end
  end.

(** [s.startswith(c)] for a one-character prefix. *)
Definition startswith (c : ascii) (s : string) : bool :=
  match s with
  | String d _ => Ascii.eqb d c
  | EmptyString => false
  end.

(** [s[1:]] *)
Definition tail1 (s : string) : string :=
  match s with
  | String _ r => r
  | EmptyString => EmptyString
  end.

(** [c in s] for a one-character needle. *)
Fixpoint contains (c : ascii) (s : string) : bool :=
  match s with
  | EmptyString => false
  | String d r => Ascii.eqb d c || contains c r
  end.

(** [g * [a]] *)
Definition list_mul {A : Type} (g : nat) (a : A) : list A := repeat a g.

End Py.

Export Py.

Declare Scope py_scope.
Notation "x <- c ;; k" := (bind c (fun x => k))
  (at level 61, c at next level, right associativity) : py_scope.
Local Open Scope py_scope.

(* ===================================================================== *)
(** * numpy boolean vectors *)
(* ===================================================================== *)

Module Np.

Abbreviation mask := (list bool).

(** [np.zeros(n, dtype=bool)] *)
Definition zeros (n : nat) : mask := repeat false n.

(** [a == s] and [a != s] for an array of strings and one string. *)
Definition eq_str (a : list string) (s : string) : mask :=
  map (fun t => String.eqb t s) a.

Definition ne_str (a : list string) (s : string) : mask :=
  map (fun t => negb (String.eqb t s)) a.

(** A binary operator on two one-dimensional arrays: equal shapes combine
    pointwise, a length-one operand is stretched, anything else is a
    [ValueError] ("operands could not be broadcast together"). *)
Definition broadcast (f : bool -> bool -> bool) (a b : mask) : result mask :=
  if length a =? length b then Ok (zip_with f a b)
  else if length b =? 1 then Ok (map (fun x => f x (hd false b)) a)
  else if length a =? 1 then Ok (map (fun y => f (hd false a) y) b)
  else Raise ValueError.

(** [a | b] and [a & b] *)
Definition or_ (a b : mask) : result mask := broadcast orb a b.
Definition and_ (a b : mask) : result mask := broadcast andb a b.

(** [a &= b]: the result is stored in [a], so only [b] may be stretched. *)
Definition iand (a b : mask) : result mask :=
  if length a =? length b then Ok (zip_with andb a b)
  else if length b =? 1 then Ok (map (fun x => x && hd false b) a)
  else Raise ValueError.

(** [a.sum()] *)
Fixpoint sum (a : mask) : nat :=
  match a with
  | [] => 0
  | b :: r => (if b then 1 else 0) + sum r
  end.

(** [a.cumsum()], with the running total so far as accumulator. *)
Fixpoint cumsum_from (acc : nat) (a : mask) : list nat :=
  match a with
  | [] => []
  | b :: r =>
      let acc' := acc + (if b then 1 else 0) in
      acc' :: cumsum_from acc' r
  end.

Definition cumsum (a : mask) : list nat := cumsum_from 0 a.

(** [v <= k] for an integer array and a scalar. *)
Definition le_scalar (v : list nat) (k : nat) : mask :=
  map (fun x => x <=? k) v.

(** [a == b] for two boolean arrays of one shape. *)
Definition eq_mask (a b : mask) : mask := zip_with Bool.eqb a b.

(** [np.where(a)[0]]: the positions of the true entries, ascending. *)
Fixpoint where_from (i : nat) (a : mask) : list nat :=
  match a with
  | [] => []
  | b :: r => if b then i :: where_from (S i) r else where_from (S i) r
  end.

Definition where_ (a : mask) : list nat := where_from 0 a.

(** [np.min(l)] of a list of integers; a [ValueError] on the empty list. *)
Definition min (l : list nat) : result nat :=
  match l with
  | [] => Raise ValueError
  | x :: r => Ok (fold_left Nat.min r x)
  end.

(** [a[ix]] with an integer index array; an [IndexError] out of bounds. *)
Definition take {A : Type} (a : list A) (ix : list nat) : result (list A) :=
  mapM (fun i => match nth_error a i with
                 | Some x => Ok x
                 | None => Raise IndexError
                 end) ix.

End Np.

(* ===================================================================== *)
(** * Datasets and selection masks *)
(* ===================================================================== *)

(** The per-trial attributes of a dataset that the selection logic reads. *)
Record Dataset : Type := mkDataset {
  types : list string;
  tiers : list string
}.

Module StimulusTypeMixin.

(** The body of the [for const in ...] loop of [get_constraint]:
    the comparison vector [tmp] of one token. *)
Definition token_mask (dataset : Dataset) (const : string) : Np.mask :=
  if startswith "~"%char const
  then Np.ne_str (types dataset) (tail1 const)
  else Np.eq_str (types dataset) const.

(** The loop of [get_constraint], [constraint] being the loop variable. *)
Fixpoint or_tokens (dataset : Dataset) (consts : list string)
  (constraint : Np.mask) : result Np.mask :=
  match consts with
  | [] => Ok constraint
  | const :: rest =>
      constraint' <- Np.or_ constraint (token_mask dataset const) ;;
      or_tokens dataset rest constraint'
  end.

Definition get_constraint (dataset : Dataset) (stimulus_type : string)
  (tier : option string) : result Np.mask :=
  constraint <- or_tokens dataset
                  (map strip (split "|"%char stimulus_type))
                  (Np.zeros (length (types dataset))) ;;
  match tier with
  | Some t => Np.and_ constraint (Np.eq_str (tiers dataset) t)
  | None => Ok constraint
  end.

End StimulusTypeMixin.

(* ===================================================================== *)
(** * Samplers *)
(* ===================================================================== *)

Module Samplers.

(** ** [collections.Counter]

    A [Counter] is a dictionary from labels to counts, kept in order of
    first insertion. *)
Definition counter : Type := list (string * nat).

Fixpoint counter_incr (e : string) (c : counter) : counter :=
  match c with
  | [] => [(e, 1)]
  | (k, n) :: r =>
      if String.eqb k e then (k, S n) :: r else (k, n) :: counter_incr e r
  end.

(** [Counter(l)] *)
Definition Counter (l : list string) : counter :=
  fold_left (fun c e => counter_incr e c) l [].

(** [c.values()] *)
Definition values (c : counter) : list nat := map snd c.

(** [max(l)] on integers; a [ValueError] on the empty sequence
    ([min(l)] is [Np.min]). *)
Definition py_max (l : list nat) : result nat :=
  match l with
  | [] => Raise ValueError
  | x :: r => Ok (fold_left Nat.max r x)
  end.

(** [c[e]] after every count [n] has been replaced by [1 / n]; a label that
    is not a key reads as [0].  The source computes the quotient in double
    precision; the exact rational stands for it here, and only the number
    of weights matters below. *)
Fixpoint inv_count (c : counter) (e : string) : Q :=
  match c with
  | [] => 0%Q
  | (k, n) :: r =>
      if String.eqb k e then (1 # Pos.of_nat n)%Q else inv_count r e
  end.

(** ** [BalancedSubsetSampler]

    [num_samples] and [replacement] are attributes that [__init__] sets
    only for the modes ['longest'] and ['shortest']. *)
Record BalancedSubsetSampler : Type := mkBalanced {
  indices : list nat;
  num_samples : option nat;
  replacement : option bool;
  weights : list Q
}.

Definition BalancedSubsetSampler_init (indices : list nat)
  (types : list string) (mode : string) : result BalancedSubsetSampler :=
  selected <- Np.take types indices ;;
  let c := Counter selected in
  attrs <- (if String.eqb mode "longest" then
              m <- py_max (values c) ;; Ok (Some m, Some true)
            else if String.eqb mode "shortest" then
              m <- Np.min (values c) ;; Ok (Some m, Some false)
            else Ok (None, None)) ;;
  w <- mapM (fun i => match nth_error types i with
                      | Some t => Ok (inv_count c t)
                      | None => Raise IndexError
                      end) indices ;;
  Ok (mkBalanced indices (fst attrs) (snd attrs) w).

(** [__len__] *)
Definition BalancedSubsetSampler_len (s : BalancedSubsetSampler)
  : result nat :=
  match num_samples s with
  | Some n => Ok n
  | None => Raise AttributeError
  end.

(** [__iter__].  [torch.multinomial] is an external routine drawing from the
    process-wide random source; it gets the state [g] of that source and
    returns positions into [weights]. *)
Section BalancedIter.

Variable rng : Type.
Variable multinomial : rng -> list Q -> nat -> bool -> list nat.

Definition BalancedSubsetSampler_iter (s : BalancedSubsetSampler) (g : rng)
  : result (list nat) :=
  match num_samples s, replacement s with
  | Some n, Some r => Np.take (indices s) (multinomial g (weights s) n r)
  | _, _ => Raise AttributeError
  end.

End BalancedIter.

(** ** [SubsetSequentialSampler] *)

(** [__iter__]: [self.indices[i] for i in range(len(self.indices))] *)
Definition SubsetSequentialSampler_iter (indices : list nat)
  : result (list nat) :=
  Np.take indices (seq 0 (length indices)).

(** ** The samplers [get_loaders] chooses from *)
Inductive Sampler : Type :=
| SubsetRandomSampler (indices : list nat)
| SubsetSequentialSampler (indices : list nat)
| BalancedSubset (s : BalancedSubsetSampler).

(** [len(sampler)] *)
Definition sampler_len (s : Sampler) : result nat :=
  match s with
  | SubsetRandomSampler ix => Ok (length ix)
  | SubsetSequentialSampler ix => Ok (length ix)
  | BalancedSubset b => BalancedSubsetSampler_len b
  end.

End Samplers.

Export Samplers.

(* ===================================================================== *)
(** * [StimulusTypeMixin.get_loaders] *)
(* ===================================================================== *)

Module Loaders.

(** ** The [shrink_to_same_size] block *)

(** [tier is None or tier in ('train', 'validation')] *)
Definition tier_qualifies (tier : option string) : bool :=
  match tier with
  | None => true
  | Some t => String.eqb t "train" || String.eqb t "validation"
  end.

(** [c & (c.cumsum() <= min_n)]; both operands have the shape of [c]. *)
Definition truncate (min_n : nat) (c : Np.mask) : Np.mask :=
  zip_with andb c (Np.le_scalar (Np.cumsum c) min_n).

(** The resolved mask [c2] of one iteration. *)
Definition resolve (min_n : nat) (st : string) (c : Np.mask) : Np.mask :=
  if negb (contains "|"%char st) then truncate min_n c else c.

(** The loop [for i, c, st in zip(count(), constraints, stimulus_types)].
    The arrays of [constraints[i + 1:]] are the very arrays the loop will
    visit later, so [c3 &= untouched] changes what later iterations see:
    the second argument is the list of arrays still to be visited, in
    their current state.  The result is [new_con]. *)
Fixpoint shrink_loop (min_n : nat) (stimulus_types : list string)
  (constraints : list Np.mask) : result (list Np.mask) :=
  match stimulus_types, constraints with
  | st :: sts, c :: later =>
      let c2 := resolve min_n st c in
      let untouched := Np.eq_mask c c2 in
      later' <- mapM (fun c3 => Np.iand c3 untouched) later ;;
      new_con <- shrink_loop min_n sts later' ;;
      Ok (c2 :: new_con)
  | _, _ => Ok []
  end.

(** The block under [if shrink_to_same_size:]. *)
Definition shrink (tier : option string) (constraints : list Np.mask)
  (stimulus_types : list string) : result (list Np.mask) :=
  if tier_qualifies tier then
    min_n <- Np.min (map Np.sum constraints) ;;
    shrink_loop min_n stimulus_types constraints
  else Ok constraints.

(** ** Choice of the sampler *)

(** The [stimulus_types] argument: [None], one string, or a list. *)
Inductive stimulus_types_arg : Type :=
| StNone
| StStr (s : string)
| StList (l : list string).

Record Loader : Type := mkLoader {
  sampler : Sampler;
  batch_size : Z
}.

(** ['Clip' if t == 'stimulus.Clip' else 'Noise'] *)
Definition merge_noise (t : string) : string :=
  if String.eqb t "stimulus.Clip" then "Clip"%string else "Noise"%string.

Section GetLoaders.

(** Keys of the dataset dictionary, and [torch]'s [DataLoader]
    constructor, whose result exposes [sampler] and [batch_size]. *)
Variable key : Type.
Variable DataLoader : Dataset -> Sampler -> Z -> result Loader.

(** The class attribute [_stimulus_type] of the configuration class. *)
Variable self_stimulus_type : string.

Definition resolve_stimulus_types (n : nat) (a : stimulus_types_arg)
  : list string :=
  match a with
  | StNone => list_mul n self_stimulus_type
  | StStr s => list_mul n s
  | StList l => l
  end.

(** The list comprehension building [constraints], then the optional
    shrinking. *)
Definition get_constraints (datasets : list (key * Dataset))
  (tier : option string) (stimulus_types : list string)
  (shrink_to_same_size : bool) : result (list Np.mask) :=
  constraints <-
    mapM (fun p => StimulusTypeMixin.get_constraint (fst p) (snd p) tier)
         (combine (map snd datasets) stimulus_types) ;;
  if shrink_to_same_size then shrink tier constraints stimulus_types
  else Ok constraints.

(** The local variable [types] at the call of [BalancedSubsetSampler]:
    bound only under [if merge_noise_types:]. *)
Definition local_types (dataset : Dataset) (merge_noise_types : bool)
  : result (list string) :=
  if merge_noise_types then Ok (map merge_noise (types dataset))
  else Raise UnboundLocalError.

(** One iteration of the second loop: the loader stored under [k]. *)
Definition make_loader (dataset : Dataset) (tier : option string)
  (batch_size : Z) (balanced merge_noise_types : bool)
  (constraint : Np.mask) : result Loader :=
  let ix := Np.where_ constraint in
  loader <-
    match tier with
    | Some "train"%string =>
        if negb balanced then
          DataLoader dataset (SubsetRandomSampler ix) batch_size
        else
          types <- local_types dataset merge_noise_types ;;
          s <- BalancedSubsetSampler_init ix types "shortest" ;;
          loader <- DataLoader dataset (BalancedSubset s) batch_size ;;
          _ <- sampler_len (sampler loader) ;;
          Ok loader
    | _ =>
        loader <- DataLoader dataset (SubsetSequentialSampler ix) batch_size ;;
        _ <- sampler_len (sampler loader) ;;
        Ok loader
    end ;;
  (* int(np.ceil(len(loaders[k].sampler) / loaders[k].batch_size)) *)
  _ <- sampler_len (sampler loader) ;;
  if Z.eqb (Loaders.batch_size loader) 0 then Raise ZeroDivisionError
  else Ok loader.

Fixpoint make_loaders (items : list ((key * Dataset) * Np.mask))
  (tier : option string) (batch_size : Z) (balanced merge_noise_types : bool)
  : result (list (key * Loader)) :=
  match items with
  | [] => Ok []
  | ((k, dataset), constraint) :: rest =>
      loader <- make_loader dataset tier batch_size balanced
                  merge_noise_types constraint ;;
      loaders <- make_loaders rest tier batch_size balanced
                   merge_noise_types ;;
      Ok ((k, loader) :: loaders)
  end.

(** The items of [zip(datasets.items(), stimulus_types, constraints)]; the
    stimulus type of an item is only logged. *)
Definition loader_items (datasets : list (key * Dataset))
  (stimulus_types : list string) (constraints : list Np.mask)
  : list ((key * Dataset) * Np.mask) :=
  map (fun p => (fst (fst p), snd p))
      (combine (combine datasets stimulus_types) constraints).

Definition get_loaders (datasets : list (key * Dataset))
  (tier : option string) (batch_size : Z) (stimulus_types : stimulus_types_arg)
  (balanced merge_noise_types shrink_to_same_size : bool)
  : result (list (key * Loader)) :=
  let stimulus_types :=
    resolve_stimulus_types (length datasets) stimulus_types in
  constraints <- get_constraints datasets tier stimulus_types
                   shrink_to_same_size ;;
  make_loaders (loader_items datasets stimulus_types constraints)
    tier batch_size balanced merge_noise_types.

End GetLoaders.

End Loaders.

(* ===================================================================== *)
(** * Group assignment of the split configurations *)
(* ===================================================================== *)

Module DataConfig.

(** The fields of [key] that [load_data] of the split classes reads. *)
Record SplitKey : Type := mkSplitKey {
  stimulus_types : string;
  permute : Z;
  balanced : Z
}.

(** [[n // T if i < T - 1 else n - (T - 1) * (n // T) for i in range(T)]] *)
Definition group_sizes (n T : nat) : list nat :=
  map (fun i => if i <? T - 1 then n / T else n - (T - 1) * (n / T))
      (seq 0 T).

(** [t[permute:] + t[:permute]] *)
Definition rotate (t : list string) (permute : nat) : list string :=
  skipn permute t ++ firstn permute t.

(** From [T = len(t)] to the [reduce(add, ...)]: one token per member.
    [n] is the number of member datasets, [len(Member() & key)]. *)
Definition assign (t : list string) (n : nat) (permute : Z)
  : result (list string) :=
  let T := length t in
  if T =? 0 then Raise ZeroDivisionError
  else
    let permute := Z.to_nat (permute mod Z.of_nat T) in
    if negb (1 <=? n / T) then Raise AssertionError
    else
      Ok (concat (zip_with (fun g a => list_mul g a)
                    (group_sizes n T) (rotate t permute))).

(** [[s.strip() for s in key['stimulus_types'].split(',')]] *)
Definition tokens (key : SplitKey) : list string :=
  map strip (split ","%char (stimulus_types key)).

Section LoadData.

(** [super().load_data], which builds masks, samplers and loaders from the
    per-member stimulus types and the [balanced] flag. *)
Variable R : Type.
Variable super_load_data : list string -> bool -> result R.

(** [load_data] of [AreaLayerSplitRawInputResponse] and of
    [AreaLayerSplitRawSizeMatched] (they differ in a flag passed on to
    [super().load_data]). *)
Definition load_data (key : SplitKey) (n : nat) : result R :=
  stimulus_types <- assign (tokens key) n (permute key) ;;
  super_load_data stimulus_types (negb (Z.eqb (balanced key) 0)).

End LoadData.

End DataConfig.

(* ===================================================================== *)
(** * Transform pipelines *)
(* ===================================================================== *)

Module Transforms.

(** The transforms that [parameters.py] puts on a dataset, by constructor
    and constructor arguments. *)
Inductive Transform : Type :=
| Subsequence (frames : Z)
| Normalizer (dataset : Dataset) (stats_source : string)
    (exclude : option (list string))
| ToTensor
| Subsample (idx : list nat).

(** [tier == s], where [tier] may be [None]. *)
Definition tier_is (tier : option string) (s : string) : bool :=
  match tier with
  | Some t => String.eqb t s
  | None => false
  end.

(** The list that [StimulusTypeMixin.add_transforms] stores in
    [dataset.transforms]; [train_seq_len] and [stats_source] are the
    entries of [key]. *)
Definition add_transforms (train_seq_len : Z) (stats_source : string)
  (dataset : Dataset) (tier : option string)
  (exclude : option (list string)) : list Transform :=
  let transforms :=
    if tier_is tier "train" then [Subsequence train_seq_len] else [] in
  transforms ++ [Normalizer dataset stats_source exclude; ToTensor].

(** [l.insert(-1, x)]: before the last element, or into the empty list. *)
Definition insert_before_last {A : Type} (l : list A) (x : A) : list A :=
  match l with
  | [] => [x]
  | _ :: _ => removelast l ++ [x; last l x]
  end.

(** The attributes [dataset.neurons.layer] and [dataset.neurons.area]. *)
Record Neurons : Type := mkNeurons {
  layer : list string;
  area : list string
}.

(** [np.where((layers == key['layer']) & (areas == key['brain_area']))[0]] *)
Definition subsample_idx (neurons : Neurons) (key_layer key_area : string)
  : result (list nat) :=
  m <- Np.and_ (Np.eq_str (layer neurons) key_layer)
               (Np.eq_str (area neurons) key_area) ;;
  Ok (Np.where_ m).

(** The transforms of one dataset after [AreaLayerRawMixin.load_data]:
    those of [add_transforms] with [Subsample(idx)] inserted at [-1]. *)
Definition raw_transforms (train_seq_len : Z) (stats_source : string)
  (dataset : Dataset) (neurons : Neurons) (key_layer key_area : string)
  (tier : option string) (exclude : option (list string))
  : result (list Transform) :=
  let transforms :=
    add_transforms train_seq_len stats_source dataset tier exclude in
  idx <- subsample_idx neurons key_layer key_area ;;
  Ok (insert_before_last transforms (Subsample idx)).


End Transforms.

(* ===================================================================== *)
(** * Vocabulary of the statements *)
(* ===================================================================== *)

(** A string of whitespace only (possibly empty). *)
Fixpoint all_space (s : string) : bool :=
  match s with
  | EmptyString => true
  | String c r => is_space c && all_space r
  end.

(** Whether a trial of type [ty] is selected by one token. *)
Definition token_match (ty const : string) : bool :=
  if startswith "~"%char const then negb (String.eqb ty (tail1 const))
  else String.eqb ty const.

(** The union over a list of tokens, before the tier filter. *)
Definition selected (dataset : Dataset) (consts : list string) : Np.mask :=
  map (fun ty => existsb (token_match ty) consts) (types dataset).

(** The tier filter applied to a mask. *)
Definition tier_filter (dataset : Dataset) (tier : option string)
  (m : Np.mask) : result Np.mask :=
  match tier with
  | Some t => Np.and_ m (Np.eq_str (tiers dataset) t)
  | None => Ok m
  end.

(** Whether a trial of tier [tr] passes the tier filter. *)
Definition tier_passes (tier : option string) (tr : string) : bool :=
  match tier with
  | Some t => String.eqb tr t
  | None => true
  end.

(** A three-trial dataset none of whose type labels is empty. *)
Definition blank_fixture : Dataset :=
  mkDataset ["stimulus.Clip"; "stimulus.Monet2"; "stimulus.Clip"]%string
            ["train"; "train"; "test"]%string.

(** The members of equally sized groups, one group per element of [l]. *)
Definition blocks {A : Type} (q : nat) (l : list A) : list A :=
  concat (zip_with (fun g a => list_mul g a) (repeat q (length l)) l).

(** [c[e]] for a counter: the count stored under [e], or [0]. *)
Fixpoint counter_get (c : counter) (e : string) : nat :=
  match c with
  | [] => 0
  | (k, n) :: r => if String.eqb k e then n else counter_get r e
  end.

(** Ten coalesced labels, three of them [Clip] and seven [Noise]. *)
Definition clip3_noise7 : list string :=
  ["Clip"; "Noise"; "Noise"; "Clip"; "Noise";
   "Noise"; "Noise"; "Clip"; "Noise"; "Noise"]%string.

(** Two masks with no common true position. *)
Definition disjoint (a b : Np.mask) : bool :=
  forallb (fun p => negb (fst p && snd p)) (combine a b).

Fixpoint pairwise_disjoint (l : list Np.mask) : bool :=
  match l with
  | [] => true
  | c :: r => forallb (disjoint c) r && pairwise_disjoint r
  end.

(** [Loaders.shrink_loop] when no [c3 &= untouched] can raise, which is the
    case when all masks have one shape. *)
Fixpoint shrink_pure (min_n : nat) (stimulus_types : list string)
  (constraints : list Np.mask) : list Np.mask :=
  match stimulus_types, constraints with
  | st :: sts, c :: later =>
      let c2 := Loaders.resolve min_n st c in
      let untouched := Np.eq_mask c c2 in
      c2 :: shrink_pure min_n sts
              (map (fun c3 => zip_with andb c3 untouched) later)
  | _, _ => []
  end.

(** Whether one of the first [k] masks has lost trial [p]: the trial is
    selected in the input mask and not in the output mask. *)
Definition lost_before (ins outs : list Np.mask) (k p : nat) : bool :=
  existsb (fun io => nth p (fst io) false && negb (nth p (snd io) false))
          (firstn k (combine ins outs)).

(** Four trials seen by two member datasets, and the masks of two
    overlapping expressions without union. *)
Definition overlap_fixture : Dataset :=
  mkDataset
    ["stimulus.Clip"; "stimulus.Clip";
     "stimulus.Trippy"; "stimulus.Trippy"]%string
    ["train"; "train"; "train"; "train"]%string.

Definition overlap_types : list string :=
  ["~stimulus.Monet2"; "stimulus.Trippy"]%string.

(** Four trials seen by three member datasets, with the stimulus types of
    the size-matched split configuration. *)
Definition split_fixture : Dataset :=
  mkDataset
    ["stimulus.Clip"; "stimulus.Clip";
     "stimulus.Clip"; "stimulus.Monet2"]%string
    ["train"; "train"; "train"; "train"]%string.

Definition split_types : list string :=
  ["stimulus.Clip"; "~stimulus.Clip"; "stimulus.Clip|~stimulus.Clip"]%string.

(** Three masks over ten trials; the first two share the prefix of four
    true positions. *)
Definition M1 : Np.mask :=
  [true; true; true; true; false; false; false; false; false; false].
Definition M2 : Np.mask :=
  [true; true; true; true; true; false; false; false; false; false].
Definition M3 : Np.mask :=
  [false; false; true; true; false; false; false; false; false; false].

(* ===================================================================== *)
(** * Properties *)
(* ===================================================================== *)

Import StimulusTypeMixin.

(** ** Lists zipped pointwise *)

Section ZipWith.

Context {A B C : Type}.

Lemma zip_with_length (f : A -> B -> C) (a : list A) (b : list B) :
  length a = length b -> length (zip_with f a b) = length a.
Proof.
  revert b; induction a as [|x a IH]; intros [|y b] H; simpl in *;
    try discriminate; auto.
Qed.

Lemma zip_with_map {D : Type} (f : A -> B -> C) (g : D -> A) (h : D -> B)
  (l : list D) :
  zip_with f (map g l) (map h l) = map (fun x => f (g x) (h x)) l.
Proof. induction l; simpl; congruence. Qed.

Lemma zip_with_nil_r (f : A -> B -> C) (a : list A) : zip_with f a [] = [].
Proof. destruct a; reflexivity. Qed.

End ZipWith.

Lemma broadcast_same (f : bool -> bool -> bool) (a b : Np.mask) :
  length a = length b -> Np.broadcast f a b = Ok (zip_with f a b).
Proof.
  intros H; unfold Np.broadcast; rewrite H, Nat.eqb_refl; reflexivity.
Qed.

Lemma zip_or_false_l (n : nat) (m : Np.mask) :
  length m = n -> zip_with orb (Np.zeros n) m = m.
Proof.
  revert m; induction n as [|n IH]; intros [|b m] H; simpl in *;
    try discriminate; auto.
  f_equal; apply IH; lia.
Qed.

Lemma zip_and_or_distr (a b t : Np.mask) :
  zip_with andb (zip_with orb a b) t
  = zip_with orb (zip_with andb a t) (zip_with andb b t).
Proof.
  revert b t; induction a as [|x a IH]; intros [|y b] [|z t]; simpl; auto.
  f_equal; [destruct x, y, z; reflexivity | apply IH].
Qed.

Lemma map_and_or_distr (h : bool) (a b : Np.mask) :
  map (fun x => x && h) (zip_with orb a b)
  = zip_with orb (map (fun x => x && h) a) (map (fun x => x && h) b).
Proof.
  revert b; induction a as [|x a IH]; intros [|y b]; simpl; auto.
  f_equal; [destruct x, y, h; reflexivity | apply IH].
Qed.

(** ** Strings *)

Lemma split_not_nil (sep : ascii) (s : string) : split sep s <> [].
Proof.
  destruct s as [|c r]; simpl; [discriminate|].
  destruct (Ascii.eqb c sep); [discriminate|].
  destruct (split sep r); discriminate.
Qed.

(** Splitting distributes over joining two strings with the separator. *)
Lemma split_join (sep : ascii) (a b : string) :
  split sep (a ++ String sep b)%string = split sep a ++ split sep b.
Proof.
  induction a as [|c a IH]; simpl.
  - rewrite Ascii.eqb_refl; reflexivity.
  - destruct (Ascii.eqb c sep); rewrite IH; [reflexivity|].
    destruct (split sep a) as [|t ts] eqn:E; [|reflexivity].
    exfalso; exact (split_not_nil _ _ E).
Qed.

Lemma strip_empty_all_space (s : string) :
  strip s = EmptyString -> all_space s = true.
Proof.
  unfold strip; induction s as [|c r IH]; simpl; auto.
  destruct (is_space c) eqn:E; simpl.
  - exact IH.
  - rewrite E; simpl; discriminate.
Qed.

Lemma all_space_split (s : string) :
  all_space s = true -> split "|"%char s = [s].
Proof.
  induction s as [|c r IH]; simpl; auto.
  intros H; apply andb_prop in H as [Hc Hr].
  destruct (Ascii.eqb c "|") eqn:E.
  - apply Ascii.eqb_eq in E; subst c; discriminate.
  - rewrite (IH Hr); reflexivity.
Qed.

(** ** The selection mask in closed form *)

Section SelectionMask.

Variable dataset : Dataset.

Lemma token_mask_map (const : string) :
  token_mask dataset const
  = map (fun ty => token_match ty const) (types dataset).
Proof.
  unfold token_mask, token_match, Np.ne_str, Np.eq_str.
  destruct (startswith "~"%char const); reflexivity.
Qed.

Lemma selected_length (consts : list string) :
  length (selected dataset consts) = length (types dataset).
Proof. unfold selected; apply length_map. Qed.

Lemma selected_cons (const : string) (consts : list string) :
  selected dataset (const :: consts)
  = zip_with orb (token_mask dataset const) (selected dataset consts).
Proof.
  rewrite token_mask_map; unfold selected; rewrite zip_with_map; reflexivity.
Qed.

Lemma selected_app (l1 l2 : list string) :
  selected dataset (l1 ++ l2)
  = zip_with orb (selected dataset l1) (selected dataset l2).
Proof.
  unfold selected; rewrite zip_with_map.
  apply map_ext; intros ty; apply existsb_app.
Qed.

Lemma zip_or_assoc (a b c : Np.mask) :
  zip_with orb (zip_with orb a b) c = zip_with orb a (zip_with orb b c).
Proof.
  revert b c; induction a as [|x a IH]; intros [|y b] [|z c]; simpl; auto.
  f_equal; [apply eq_sym, orb_assoc | apply IH].
Qed.

Lemma or_tokens_spec (consts : list string) (constraint : Np.mask) :
  length constraint = length (types dataset) ->
  or_tokens dataset consts constraint
  = Ok (zip_with orb constraint (selected dataset consts)).
Proof.
  revert constraint; induction consts as [|const rest IH];
    intros constraint Hlen; simpl.
  - f_equal. unfold selected; simpl.
    revert constraint Hlen; induction (types dataset) as [|ty l IHl];
      intros [|b m] H; simpl in *; try discriminate; auto.
    rewrite orb_false_r; f_equal; apply IHl; lia.
  - unfold Np.or_; rewrite broadcast_same
      by (rewrite token_mask_map, length_map; exact Hlen).
    simpl; rewrite IH.
    + rewrite selected_cons, zip_or_assoc; reflexivity.
    + rewrite zip_with_length; [exact Hlen|].
      rewrite token_mask_map, length_map; exact Hlen.
Qed.

Lemma get_constraint_spec (stimulus_type : string) (tier : option string) :
  get_constraint dataset stimulus_type tier
  = tier_filter dataset tier
      (selected dataset (map strip (split "|"%char stimulus_type))).
Proof.
  unfold get_constraint.
  rewrite or_tokens_spec by (unfold Np.zeros; apply repeat_length).
  simpl; rewrite zip_or_false_l by apply selected_length; reflexivity.
Qed.

Lemma tier_filter_or (tier : option string) (a b : Np.mask) :
  length a = length b ->
  tier_filter dataset tier (zip_with orb a b)
  = (a' <- tier_filter dataset tier a ;;
     b' <- tier_filter dataset tier b ;;
     Np.or_ a' b').
Proof.
  intros Hab; destruct tier as [t|]; simpl.
  2: { unfold Np.or_; rewrite broadcast_same by exact Hab; reflexivity. }
  set (tv := Np.eq_str (tiers dataset) t).
  unfold Np.and_, Np.or_, Np.broadcast.
  rewrite zip_with_length by exact Hab; rewrite <- Hab.
  destruct (length a =? length tv) eqn:E1; simpl.
  - apply Nat.eqb_eq in E1.
    rewrite !zip_with_length by congruence.
    rewrite Hab, Nat.eqb_refl, zip_and_or_distr; reflexivity.
  - destruct (length tv =? 1) eqn:E2; simpl.
    + rewrite !length_map, Hab, Nat.eqb_refl, map_and_or_distr; reflexivity.
    + destruct (length a =? 1) eqn:E3; simpl; [|reflexivity].
      rewrite !length_map, Nat.eqb_refl.
      destruct a as [|x [|? ?]]; try discriminate.
      destruct b as [|y [|? ?]]; try discriminate.
      simpl; rewrite zip_with_map.
      apply f_equal, map_ext; intros z; destruct x, y, z; reflexivity.
Qed.

End SelectionMask.

(** [C7] For every dataset, every tier filter and any two expressions [A]
    and [B], the mask built for the expression [A|B] is the elementwise
    logical OR of the mask built for [A] and the mask built for [B] under
    the same tier filter (and it raises exactly when those do). *)
Theorem union_mask_is_or (dataset : Dataset) (A B : string)
  (tier : option string) :
  get_constraint dataset (A ++ String "|" B) tier
  = (mA <- get_constraint dataset A tier ;;
     mB <- get_constraint dataset B tier ;;
     Np.or_ mA mB).
Proof.
  rewrite !get_constraint_spec, split_join, map_app, selected_app.
  apply tier_filter_or.
  rewrite !selected_length; reflexivity.
Qed.

(** ** Expressions that are empty after trimming *)

Lemma map_fst_combine {A B C : Type} (g : A -> C) (a : list A) (b : list B) :
  length a = length b -> map g a = map (fun p => g (fst p)) (combine a b).
Proof.
  revert b; induction a as [|x a IH]; intros [|y b] H; simpl in *;
    try discriminate; auto.
  f_equal; apply IH; lia.
Qed.

Lemma zip_with_combine {A B C D E : Type} (f : C -> D -> E) (g : A -> C)
  (h : B -> D) (a : list A) (b : list B) :
  zip_with f (map g a) (map h b)
  = map (fun p => f (g (fst p)) (h (snd p))) (combine a b).
Proof.
  revert b; induction a as [|x a IH]; intros [|y b]; simpl; auto.
  f_equal; apply IH.
Qed.

Lemma selected_blank (dataset : Dataset) (expr : string) :
  strip expr = EmptyString ->
  selected dataset (map strip (split "|"%char expr))
  = map (fun ty => String.eqb ty EmptyString) (types dataset).
Proof.
  intros H.
  rewrite (all_space_split _ (strip_empty_all_space _ H)); simpl; rewrite H.
  unfold selected; apply map_ext; intros ty; simpl.
  apply orb_false_r.
Qed.

(** [C4] (as amended) For every dataset with one tier label per trial,
    every stimulus-type expression and every tier filter, mask
    construction raises nothing and returns a mask with one entry per
    trial; for an expression that is empty after trimming, that mask
    selects exactly the trials whose type label is the empty string and
    whose tier passes the filter. *)
Theorem get_constraint_total (dataset : Dataset) (expr : string)
  (tier : option string) :
  length (tiers dataset) = length (types dataset) ->
  exists m,
    get_constraint dataset expr tier = Ok m /\
    length m = length (types dataset) /\
    (strip expr = EmptyString ->
     m = map (fun p => String.eqb (fst p) EmptyString
                       && tier_passes tier (snd p))
             (combine (types dataset) (tiers dataset))).
Proof.
  intros Hlen; rewrite get_constraint_spec.
  set (sel := selected dataset (map strip (split "|"%char expr))).
  assert (Hsel : length sel = length (types dataset))
    by apply selected_length.
  destruct tier as [t|]; simpl.
  - unfold Np.and_; rewrite broadcast_same
      by (unfold Np.eq_str; rewrite length_map; congruence).
    eexists; split; [reflexivity|]; split.
    + rewrite zip_with_length; [exact Hsel|].
      unfold Np.eq_str; rewrite length_map; congruence.
    + intros Hblank; subst sel; rewrite (selected_blank _ _ Hblank).
      unfold Np.eq_str.
      exact (zip_with_combine andb (fun ty => String.eqb ty EmptyString)
               (fun tr => String.eqb tr t) _ _).
  - exists sel; split; [reflexivity|]; split; [exact Hsel|].
    intros Hblank; subst sel; rewrite (selected_blank _ _ Hblank).
    rewrite (map_fst_combine _ _ (tiers dataset)) by congruence.
    apply map_ext; intros p; symmetry; apply andb_true_r.
Qed.

Lemma get_constraint_total_witness :
  exists m,
    get_constraint blank_fixture "  " (Some "train"%string) = Ok m /\
    length m = 3 /\
    (strip "  " = EmptyString -> m = [false; false; false]).
Proof.
  exact (get_constraint_total blank_fixture "  " (Some "train"%string)
           eq_refl).
Defined.

(** [C4] (counterexample) For the whitespace-only expression mask
    construction raises nothing: it returns an all-false mask. *)
Lemma blank_expression_not_rejected :
  strip "  " = EmptyString /\
  get_constraint blank_fixture "  " (Some "train"%string)
  = Ok [false; false; false] /\
  ~ (exists e : exn,
       get_constraint blank_fixture "  " (Some "train"%string) = Raise e).
Proof.
  split; [reflexivity|]; split; [reflexivity|].
  intros [e He]; discriminate He.
Qed.

(** ** Group assignment *)

Import DataConfig.

Lemma tokens_not_nil (key : SplitKey) : tokens key <> [].
Proof.
  unfold tokens; intros H; apply map_eq_nil in H.
  exact (split_not_nil _ _ H).
Qed.

Lemma assign_underflow (t : list string) (n : nat) (permute : Z) :
  t <> [] -> n / length t < 1 -> assign t n permute = Raise AssertionError.
Proof.
  intros Ht Hlt; unfold assign.
  destruct (length t =? 0) eqn:E0.
  - apply Nat.eqb_eq, length_zero_iff_nil in E0; contradiction.
  - destruct (1 <=? n / length t) eqn:E1; [|reflexivity].
    apply Nat.leb_le in E1; lia.
Qed.

(** [C8] With the tokens [x,y] and seven member datasets the group sizes
    are [3,4]; with [permute = 0] the members get [x,x,x,y,y,y,y], and
    with [permute = 1] the token list is rotated left by one and the
    members get [y,y,y,x,x,x,x]. *)
Theorem assign_xy_seven :
  tokens (mkSplitKey "x,y" 0 0) = ["x"; "y"]%string /\
  group_sizes 7 2 = [3; 4] /\
  assign ["x"; "y"]%string 7 0
  = Ok ["x"; "x"; "x"; "y"; "y"; "y"; "y"]%string /\
  rotate ["x"; "y"]%string (Z.to_nat (1 mod 2)) = ["y"; "x"]%string /\
  assign ["x"; "y"]%string 7 1
  = Ok ["y"; "y"; "y"; "x"; "x"; "x"; "x"]%string.
Proof. repeat split; reflexivity. Qed.

(** [C9] Whenever the number of member datasets divided by the number of
    tokens is below one, [load_data] raises the assertion error
    "not enough member datasets to do splits", whatever
    [super().load_data] (which builds all masks and samplers) would do:
    it is not reached. *)
Theorem load_data_underflow (R : Type)
  (super_load_data : list string -> bool -> result R)
  (key : SplitKey) (n : nat) :
  n / length (tokens key) < 1 ->
  load_data R super_load_data key n = Raise AssertionError.
Proof.
  intros Hlt; unfold load_data.
  rewrite (assign_underflow _ _ _ (tokens_not_nil key) Hlt); reflexivity.
Qed.

Lemma load_data_underflow_witness :
  tokens (mkSplitKey "x,y,z" 0 0) = ["x"; "y"; "z"]%string /\
  load_data unit (fun _ _ => Ok tt) (mkSplitKey "x,y,z" 0 0) 2
  = Raise AssertionError.
Proof.
  split; [reflexivity|].
  apply (load_data_underflow unit (fun _ _ => Ok tt)
           (mkSplitKey "x,y,z" 0 0) 2).
  vm_compute; lia.
Defined.

Section GroupLayout.

Lemma map_seq_const {A : Type} (f : nat -> A) (x : A) (a k : nat) :
  (forall i, a <= i < a + k -> f i = x) -> map f (seq a k) = repeat x k.
Proof.
  revert a; induction k as [|k IH]; intros a H; simpl; auto.
  rewrite H by lia; f_equal; apply IH; intros i Hi; apply H; lia.
Qed.

(** All groups but the last have [n // T] members; the last one has the
    [n mod T] members that are left over as well. *)
Lemma group_sizes_spec (n T : nat) :
  1 <= T ->
  group_sizes n T = repeat (n / T) (T - 1) ++ [n / T + n mod T].
Proof.
  intros HT; unfold group_sizes.
  destruct T as [|k]; [lia|].
  pose proof (Nat.div_mod_eq n (S k)) as Hdm.
  set (q := n / S k) in *; set (r := n mod S k) in *.
  replace (S k - 1) with k by lia.
  rewrite seq_S, map_app; f_equal.
  - apply map_seq_const; intros i Hi.
    destruct (i <? k) eqn:E; [reflexivity|].
    apply Nat.ltb_ge in E; lia.
  - cbn [map Nat.add]; rewrite Nat.ltb_irrefl; f_equal; nia.
Qed.

Lemma list_sum_repeat (q k : nat) : list_sum (repeat q k) = k * q.
Proof. induction k; simpl; lia. Qed.

Lemma group_sizes_sum (n T : nat) :
  1 <= T -> list_sum (group_sizes n T) = n.
Proof.
  intros HT; rewrite group_sizes_spec by exact HT.
  rewrite list_sum_app, list_sum_repeat; simpl.
  pose proof (Nat.div_mod_eq n T) as Hdm; nia.
Qed.

Lemma rotate_length (t : list string) (p : nat) :
  length (rotate t p) = length t.
Proof.
  unfold rotate; rewrite length_app, length_skipn, length_firstn; lia.
Qed.

Lemma zip_with_app {A B C : Type} (f : A -> B -> C) (a1 a2 : list A)
  (b1 b2 : list B) :
  length a1 = length b1 ->
  zip_with f (a1 ++ a2) (b1 ++ b2) = zip_with f a1 b1 ++ zip_with f a2 b2.
Proof.
  revert b1; induction a1 as [|x a1 IH]; intros [|y b1] H; simpl in *;
    try discriminate; auto.
  f_equal; apply IH; lia.
Qed.

Lemma blocks_length {A : Type} (q : nat) (l : list A) :
  length (blocks q l) = q * length l.
Proof.
  unfold blocks; induction l as [|a l IH]; simpl; [lia|].
  unfold list_mul at 1; rewrite length_app, repeat_length, IH; lia.
Qed.

Lemma blocks_nth_error {A : Type} (q : nat) (l : list A) (j : nat) :
  j < q * length l -> nth_error (blocks q l) j = nth_error l (j / q).
Proof.
  revert j; induction l as [|a l IH]; intros j Hj; simpl in Hj; [lia|].
  assert (Hq : q <> 0) by lia.
  change (blocks q (a :: l)) with (repeat a q ++ blocks q l).
  destruct (Nat.lt_ge_cases j q) as [Hlt|Hge].
  - rewrite nth_error_app1 by (rewrite repeat_length; exact Hlt).
    rewrite Nat.div_small by exact Hlt; simpl.
    apply nth_error_repeat; exact Hlt.
  - rewrite nth_error_app2 by (rewrite repeat_length; exact Hge).
    rewrite repeat_length, IH by lia.
    replace j with ((j - q) + 1 * q) at 2 by lia.
    rewrite Nat.div_add by exact Hq.
    replace ((j - q) / q + 1) with (S ((j - q) / q)) by lia.
    reflexivity.
Qed.

End GroupLayout.

(** [C3] (as amended) For every token list of length [T], member count [n]
    with [n // T >= 1] and permutation offset, the group assignment
    returns one token per member dataset; the members form [T] contiguous
    groups whose sizes add up to [n], the first [T - 1] groups having
    [n // T] members and the final group [n // T + n mod T]; member [j]
    gets the token of group [min(j // (n // T), T - 1)] of the rotated
    token list. *)
Theorem assign_partition (t : list string) (n : nat) (permute : Z) :
  1 <= n / length t ->
  let T := length t in
  let q := n / T in
  let rot := rotate t (Z.to_nat (permute mod Z.of_nat T)) in
  group_sizes n T = repeat q (T - 1) ++ [q + n mod T] /\
  list_sum (group_sizes n T) = n /\
  exists out,
    assign t n permute = Ok out /\
    length out = n /\
    forall j, j < n ->
      nth_error out j = nth_error rot (Nat.min (j / q) (T - 1)).
Proof.
  intros Hq T q rot.
  assert (HT : 1 <= T).
  { destruct T eqn:E; [|lia]. subst T; rewrite E in Hq; simpl in Hq; lia. }
  fold T q in Hq.
  split; [apply group_sizes_spec; exact HT|].
  split; [apply group_sizes_sum; exact HT|].
  unfold assign; fold T q rot.
  destruct (T =? 0) eqn:E0; [apply Nat.eqb_eq in E0; lia|].
  destruct (1 <=? q) eqn:E1; [|apply Nat.leb_gt in E1; lia]; simpl.
  eexists; split; [reflexivity|].
  assert (Hrot : length rot = T) by apply rotate_length.
  rewrite group_sizes_spec by exact HT; fold q.
  rewrite <- (firstn_skipn (T - 1) rot).
  set (init := firstn (T - 1) rot).
  assert (Hinit : length init = T - 1)
    by (unfold init; rewrite length_firstn; lia).
  destruct (skipn (T - 1) rot) as [|x [|? ?]] eqn:Elast;
    try (apply (f_equal (@length string)) in Elast;
         rewrite length_skipn in Elast; simpl in Elast; lia).
  rewrite zip_with_app by (rewrite repeat_length; lia).
  rewrite concat_app; simpl; rewrite app_nil_r.
  rewrite <- Hinit; fold (blocks q init); rewrite Hinit.
  pose proof (Nat.div_mod_eq n T) as Hdm; fold q in Hdm.
  split.
  - unfold list_mul; rewrite length_app, blocks_length, repeat_length; nia.
  - intros j Hj.
    destruct (Nat.lt_ge_cases j (q * (T - 1))) as [Hlt|Hge].
    + rewrite nth_error_app1 by (rewrite blocks_length, Hinit; exact Hlt).
      rewrite blocks_nth_error by (rewrite Hinit; exact Hlt).
      assert (j / q < T - 1) by (apply Nat.Div0.div_lt_upper_bound; lia).
      rewrite Nat.min_l by lia.
      rewrite nth_error_app1 by lia; reflexivity.
    + rewrite nth_error_app2 by (rewrite blocks_length, Hinit; exact Hge).
      rewrite blocks_length, Hinit.
      assert (T - 1 <= j / q) by (apply Nat.div_le_lower_bound; lia).
      rewrite Nat.min_r by lia.
      rewrite nth_error_app2 by lia.
      rewrite Hinit, Nat.sub_diag; simpl.
      apply nth_error_repeat; nia.
Qed.

Lemma assign_partition_witness :
  group_sizes 5 3 = [1; 1; 3] /\
  list_sum (group_sizes 5 3) = 5 /\
  exists out,
    assign ["x"; "y"; "z"]%string 5 1 = Ok out /\
    length out = 5 /\
    forall j, j < 5 ->
      nth_error out j
      = nth_error ["y"; "z"; "x"]%string (Nat.min (j / 1) 2).
Proof.
  apply (assign_partition ["x"; "y"; "z"]%string 5 1).
  vm_compute; lia.
Defined.

(** [C3] (counterexample) With three tokens and five member datasets the
    assertion passes and the groups have one, one and three members: two
    of the sizes differ by two. *)
Lemma group_sizes_differ_by_two :
  1 <= 5 / 3 /\
  group_sizes 5 3 = [1; 1; 3] /\
  assign ["x"; "y"; "z"]%string 5 0
  = Ok ["x"; "y"; "z"; "z"; "z"]%string /\
  ~ (forall a b, In a (group_sizes 5 3) -> In b (group_sizes 5 3) ->
                 b <= a + 1).
Proof.
  split; [vm_compute; lia|]; split; [reflexivity|]; split; [reflexivity|].
  intros H; specialize (H 1 3); simpl in H.
  assert (3 <= 1 + 1) by (apply H; auto).
  lia.
Qed.

(** ** The balanced sampler *)

Section CounterFacts.

Lemma counter_incr_get (e e' : string) (c : counter) :
  counter_get (counter_incr e c) e'
  = (if String.eqb e e' then 1 else 0) + counter_get c e'.
Proof.
  induction c as [|[k n] r IH]; simpl.
  - destruct (String.eqb e e'); reflexivity.
  - destruct (String.eqb k e) eqn:Eke; simpl.
    + apply String.eqb_eq in Eke; subst k.
      destruct (String.eqb e e'); reflexivity.
    + destruct (String.eqb k e') eqn:Eke'; [|exact IH].
      apply String.eqb_eq in Eke'; subst e'.
      rewrite String.eqb_sym, Eke; reflexivity.
Qed.

Lemma counter_incr_keys (e k : string) (c : counter) :
  In k (map fst (counter_incr e c)) <-> k = e \/ In k (map fst c).
Proof.
  induction c as [|[k' n] r IH]; simpl.
  - intuition congruence.
  - destruct (String.eqb k' e) eqn:E; simpl.
    + apply String.eqb_eq in E; subst k'; intuition congruence.
    + rewrite IH; intuition congruence.
Qed.

Lemma counter_incr_NoDup (e : string) (c : counter) :
  NoDup (map fst c) -> NoDup (map fst (counter_incr e c)).
Proof.
  induction c as [|[k n] r IH]; simpl; intros H.
  - constructor; [intros []|constructor].
  - destruct (String.eqb k e) eqn:E; simpl; [exact H|].
    inversion H as [|? ? Hk Hr]; subst.
    constructor; [|apply IH; exact Hr].
    rewrite counter_incr_keys; intros [->|Hin]; [|contradiction].
    rewrite String.eqb_refl in E; discriminate.
Qed.

(** The facts that hold of a counter while [Counter] fills it. *)
Lemma Counter_fold (l : list string) (c : counter) :
  let c' := fold_left (fun c e => counter_incr e c) l c in
  (forall e, counter_get c' e = counter_get c e + count_occ string_dec l e)
  /\ (NoDup (map fst c) -> NoDup (map fst c'))
  /\ (forall k, In k (map fst c') -> In k (map fst c) \/ In k l).
Proof.
  revert c; induction l as [|x l IH]; intros c; simpl.
  - repeat split; auto.
  - destruct (IH (counter_incr x c)) as (Hget & Hnd & Hkeys).
    repeat split.
    + intros e; rewrite Hget, counter_incr_get.
      destruct (string_dec x e) as [->|Hne].
      * rewrite String.eqb_refl; lia.
      * destruct (String.eqb x e) eqn:E; [|lia].
        apply String.eqb_eq in E; contradiction.
    + intros H; apply Hnd, counter_incr_NoDup, H.
    + intros k Hk; destruct (Hkeys k Hk) as [Hin|Hin]; [|auto].
      apply counter_incr_keys in Hin as [->|Hin]; auto.
Qed.

Lemma counter_get_In (c : counter) (k : string) :
  0 < counter_get c k -> In (k, counter_get c k) c.
Proof.
  induction c as [|[k' n] r IH]; simpl; [lia|].
  destruct (String.eqb k' k) eqn:E; [|auto].
  apply String.eqb_eq in E; subst; auto.
Qed.

Lemma counter_In_get (c : counter) (k : string) (n : nat) :
  NoDup (map fst c) -> In (k, n) c -> counter_get c k = n.
Proof.
  induction c as [|[k' n'] r IH]; simpl; [intros _ []|].
  intros H [Heq|Hin]; inversion H as [|? ? Hk Hr]; subst.
  - inversion Heq; subst; rewrite String.eqb_refl; reflexivity.
  - destruct (String.eqb k' k) eqn:E; [|auto].
    apply String.eqb_eq in E; subst k'.
    exfalso; apply Hk; exact (in_map fst _ _ Hin).
Qed.

(** [Counter(l)] maps every label of [l], and nothing else, to the number
    of its occurrences in [l]. *)
Lemma Counter_spec (l : list string) (k : string) (n : nat) :
  In (k, n) (Counter l) <-> In k l /\ n = count_occ string_dec l k.
Proof.
  destruct (Counter_fold l []) as (Hget & Hnd & Hkeys); simpl in *.
  fold (Counter l) in *; split.
  - intros Hin.
    assert (Hk : In k l).
    { destruct (Hkeys k (in_map fst _ _ Hin)) as [[]|Hk]; exact Hk. }
    split; [exact Hk|].
    rewrite <- Hget; symmetry; apply counter_In_get; [|exact Hin].
    apply Hnd; constructor.
  - intros [Hk ->]; rewrite <- Hget.
    apply counter_get_In; rewrite Hget.
    apply (count_occ_In string_dec); exact Hk.
Qed.

Lemma fold_min_spec (r : list nat) (x : nat) :
  In (fold_left Nat.min r x) (x :: r)
  /\ forall y, In y (x :: r) -> fold_left Nat.min r x <= y.
Proof.
  revert x; induction r as [|z r IH]; intros x; simpl.
  - split; [auto|intros y [->|[]]; lia].
  - destruct (IH (Nat.min x z)) as [Hin Hle]; split.
    + destruct Hin as [Heq|Hin]; [|auto].
      rewrite <- Heq; destruct (Nat.min_dec x z) as [E|E]; rewrite E; auto.
    + intros y Hy.
      assert (fold_left Nat.min r (Nat.min x z) <= Nat.min x z)
        by (apply Hle; left; reflexivity).
      destruct Hy as [->|[->|Hy]]; [lia|lia|].
      apply Hle; right; exact Hy.
Qed.

End CounterFacts.

Section IndexArrays.

Context {A B : Type}.

Lemma mapM_length (f : A -> result B) (l : list A) (ys : list B) :
  mapM f l = Ok ys -> length ys = length l.
Proof.
  revert ys; induction l as [|x l IH]; simpl; intros ys H.
  - inversion H; reflexivity.
  - destruct (f x); simpl in H; [|discriminate].
    destruct (mapM f l); simpl in H; [|discriminate].
    inversion H; subst; simpl; f_equal; apply IH; reflexivity.
Qed.

(** Reading [a[i]] for every [i] of an index array that [a[ix]] accepts. *)
Lemma take_then_map (g : A -> B) (a : list A) (ix : list nat)
  (sel : list A) :
  Np.take a ix = Ok sel ->
  mapM (fun i => match nth_error a i with
                 | Some t => Ok (g t)
                 | None => Raise IndexError
                 end) ix = Ok (map g sel).
Proof.
  unfold Np.take; revert sel; induction ix as [|i ix IH]; simpl; intros sel H.
  - inversion H; reflexivity.
  - destruct (nth_error a i); simpl in *; [|discriminate].
    destruct (mapM _ ix) eqn:E; simpl in *; [|discriminate].
    inversion H; subst; rewrite (IH _ eq_refl); reflexivity.
Qed.

Lemma take_in_range (a : list A) (ix : list nat) :
  Forall (fun i => i < length a) ix ->
  exists out, Np.take a ix = Ok out /\ length out = length ix.
Proof.
  unfold Np.take; induction 1 as [|i ix Hi _ IH]; simpl.
  - exists []; auto.
  - destruct IH as (out & -> & Hlen).
    destruct (nth_error a i) as [x|] eqn:E.
    + exists (x :: out); simpl; auto.
    + apply nth_error_None in E; lia.
Qed.

End IndexArrays.

(** [C1] (as amended) For a balanced sampler in 'shortest' mode built from
    an index list whose selected labels fall into two categories with
    counts [A:3] and [B:7], construction succeeds and the sampler's length
    is exactly 3, the minimum per-category count: the length query returns
    3, and every iteration emits 3 indices, whatever positions
    [torch.multinomial] draws. *)
Theorem balanced_len_shortest (indices : list nat) (types sel : list string)
  (A B : string) :
  Np.take types indices = Ok sel ->
  Forall (fun x => x = A \/ x = B) sel ->
  count_occ string_dec sel A = 3 ->
  count_occ string_dec sel B = 7 ->
  exists s,
    BalancedSubsetSampler_init indices types "shortest" = Ok s /\
    BalancedSubsetSampler_len s = Ok 3 /\
    forall (rng : Type) (multinomial : rng -> list Q -> nat -> bool -> list nat)
           (g : rng),
      (forall w n r, n <= length w ->
         length (multinomial g w n r) = n /\
         Forall (fun i => i < length w) (multinomial g w n r)) ->
      exists out,
        BalancedSubsetSampler_iter rng multinomial s g = Ok out /\
        length out = 3.
Proof.
  intros Htake Hlab HA HB.
  assert (HinA : In (A, 3) (Counter sel)).
  { apply Counter_spec; split; [|congruence].
    apply (count_occ_In string_dec); lia. }
  assert (Hmin : Np.min (values (Counter sel)) = Ok 3).
  { apply (in_map snd) in HinA; simpl in HinA.
    fold (values (Counter sel)) in HinA.
    unfold Np.min; destruct (values (Counter sel)) as [|x r] eqn:E;
      [destruct HinA|].
    destruct (fold_min_spec r x) as [Hin Hle].
    specialize (Hle 3 HinA).
    rewrite <- E in Hin; unfold values in Hin.
    apply in_map_iff in Hin as ([k n] & Hn & Hkn); simpl in Hn; subst n.
    apply Counter_spec in Hkn as [Hk Hcount].
    rewrite Forall_forall in Hlab.
    f_equal; destruct (Hlab k Hk) as [->| ->]; lia. }
  unfold BalancedSubsetSampler_init.
  rewrite Htake; cbn [bind String.eqb Ascii.eqb Bool.eqb]; rewrite Hmin.
  cbn [bind fst snd].
  rewrite (take_then_map (inv_count (Counter sel)) _ _ _ Htake).
  cbn [bind]; eexists; split; [reflexivity|]; split; [reflexivity|].
  intros rng multinomial g Hdraw.
  unfold BalancedSubsetSampler_iter; simpl.
  assert (Hlen : length sel = length indices)
    by (eapply mapM_length; exact Htake).
  pose proof (count_occ_bound string_dec B sel) as Hbound.
  destruct (Hdraw (map (inv_count (Counter sel)) sel) 3 false) as [Hn Hrange];
    [rewrite length_map; lia|].
  rewrite length_map, Hlen in Hrange.
  destruct (take_in_range indices _ Hrange) as (out & Hout & Hlo).
  exists out; split; [exact Hout | congruence].
Qed.

Lemma balanced_len_shortest_witness :
  exists s,
    BalancedSubsetSampler_init (seq 0 10) clip3_noise7 "shortest" = Ok s /\
    BalancedSubsetSampler_len s = Ok 3 /\
    forall (rng : Type) (multinomial : rng -> list Q -> nat -> bool -> list nat)
           (g : rng),
      (forall w n r, n <= length w ->
         length (multinomial g w n r) = n /\
         Forall (fun i => i < length w) (multinomial g w n r)) ->
      exists out,
        BalancedSubsetSampler_iter rng multinomial s g = Ok out /\
        length out = 3.
Proof.
  apply (balanced_len_shortest (seq 0 10) clip3_noise7 clip3_noise7
           "Clip" "Noise").
  - reflexivity.
  - unfold clip3_noise7.
    repeat (apply Forall_cons;
            [first [left; reflexivity | right; reflexivity]|]).
    apply Forall_nil.
  - reflexivity.
  - reflexivity.
Defined.

(** [C1] (counterexample) With three [Clip] and seven [Noise] labels the
    length of the balanced sampler in 'shortest' mode is 3, not 6. *)
Lemma balanced_len_not_six :
  Counter clip3_noise7 = [("Clip", 3); ("Noise", 7)]%string /\
  exists s,
    BalancedSubsetSampler_init (seq 0 10) clip3_noise7 "shortest" = Ok s /\
    BalancedSubsetSampler_len s = Ok 3 /\
    BalancedSubsetSampler_len s <> Ok (2 * 3) /\
    BalancedSubsetSampler_iter unit (fun _ _ n _ => seq 0 n) s tt
    = Ok [0; 1; 2].
Proof.
  split; [reflexivity|].
  eexists; split; [reflexivity|].
  split; [reflexivity|]; split; [discriminate | reflexivity].
Qed.

(** ** The size equaliser *)

Import Loaders.

(** Arithmetic goals with [Nat.min]: split every minimum, then [lia]. *)
Ltac min_lia :=
  repeat match goal with
         | |- context [Nat.min ?a ?b] =>
             destruct (Nat.min_spec a b) as [[? ->]|[? ->]]
         end;
  lia.

Section Truncation.

Lemma cumsum_from_length (acc : nat) (c : Np.mask) :
  length (Np.cumsum_from acc c) = length c.
Proof. revert acc; induction c; simpl; intros; auto. Qed.

Lemma truncate_length (min_n : nat) (c : Np.mask) :
  length (truncate min_n c) = length c.
Proof.
  unfold truncate; apply zip_with_length.
  unfold Np.le_scalar, Np.cumsum; rewrite length_map, cumsum_from_length.
  reflexivity.
Qed.

Lemma resolve_length (min_n : nat) (st : string) (c : Np.mask) :
  length (resolve min_n st c) = length c.
Proof.
  unfold resolve; destruct (negb (contains "|" st)); auto using truncate_length.
Qed.

(** Truncation keeps the first [min_n] true entries. *)
Lemma truncate_from_sum (acc k : nat) (c : Np.mask) :
  Np.sum (zip_with andb c (Np.le_scalar (Np.cumsum_from acc c) k))
  = Nat.min (k - acc) (Np.sum c).
Proof.
  revert acc; induction c as [|b r IH]; intros acc; simpl; [lia|].
  rewrite IH; destruct b; simpl.
  - destruct (acc + 1 <=? k) eqn:E;
      [apply Nat.leb_le in E | apply Nat.leb_gt in E]; min_lia.
  - rewrite Nat.add_0_r; reflexivity.
Qed.

Lemma truncate_sum (min_n : nat) (c : Np.mask) :
  Np.sum (truncate min_n c) = Nat.min min_n (Np.sum c).
Proof.
  unfold truncate, Np.cumsum; rewrite truncate_from_sum; f_equal; lia.
Qed.

Lemma iand_same (a b : Np.mask) :
  length a = length b -> Np.iand a b = Ok (zip_with andb a b).
Proof. intros H; unfold Np.iand; rewrite H, Nat.eqb_refl; reflexivity. Qed.

Lemma mapM_iand (u : Np.mask) (later : list Np.mask) :
  Forall (fun c => length c = length u) later ->
  mapM (fun c3 => Np.iand c3 u) later
  = Ok (map (fun c3 => zip_with andb c3 u) later).
Proof.
  induction 1 as [|c later Hc _ IH]; simpl; [reflexivity|].
  rewrite (iand_same _ _ Hc), IH; reflexivity.
Qed.

Lemma untouched_length (min_n : nat) (st : string) (c : Np.mask) :
  length (Np.eq_mask c (resolve min_n st c)) = length c.
Proof.
  unfold Np.eq_mask; apply zip_with_length; symmetry; apply resolve_length.
Qed.

Lemma cascade_lengths (L : nat) (u : Np.mask) (later : list Np.mask) :
  length u = L ->
  Forall (fun c => length c = L) later ->
  Forall (fun c => length c = L) (map (fun c3 => zip_with andb c3 u) later).
Proof.
  intros Hu H; apply Forall_map; revert H; apply Forall_impl.
  intros c Hc; rewrite zip_with_length; congruence.
Qed.

(** With masks of one shape the loop raises nothing. *)
Lemma shrink_loop_pure (L min_n : nat) (sts : list string)
  (cs : list Np.mask) :
  Forall (fun c => length c = L) cs ->
  shrink_loop min_n sts cs = Ok (shrink_pure min_n sts cs).
Proof.
  revert cs; induction sts as [|st sts IH]; intros cs Hcs; [reflexivity|].
  destruct cs as [|c later]; [reflexivity|].
  inversion Hcs as [|? ? Hc Hlater]; subst; simpl.
  pose proof (untouched_length min_n st c) as Hu.
  rewrite mapM_iand by (revert Hlater; apply Forall_impl; intros; congruence).
  simpl; rewrite IH by (apply cascade_lengths; assumption).
  reflexivity.
Qed.

Lemma shrink_pure_length (min_n : nat) (sts : list string)
  (cs : list Np.mask) :
  length sts = length cs -> length (shrink_pure min_n sts cs) = length cs.
Proof.
  revert cs; induction sts as [|st sts IH]; intros [|c later] H;
    simpl in *; try discriminate; auto.
  f_equal; rewrite IH; rewrite length_map; lia.
Qed.

End Truncation.

Section Pointwise.

Lemma nth_zip_with {A B C : Type} (f : A -> B -> C) (a : list A)
  (b : list B) (da : A) (db : B) (p : nat) :
  length a = length b ->
  nth p (zip_with f a b) (f da db) = f (nth p a da) (nth p b db).
Proof.
  revert b p; induction a as [|x a IH]; intros [|y b] p H; simpl in *;
    try discriminate.
  - destruct p; reflexivity.
  - destruct p; [reflexivity|]; apply IH; lia.
Qed.

Lemma truncate_at (min_n : nat) (c : Np.mask) (p : nat) :
  nth p (truncate min_n c) false = true -> nth p c false = true.
Proof.
  unfold truncate.
  rewrite (nth_zip_with andb c _ false false).
  - intros H; apply andb_prop in H as [H _]; exact H.
  - unfold Np.le_scalar, Np.cumsum; rewrite length_map, cumsum_from_length.
    reflexivity.
Qed.

(** A resolved mask selects no trial that its input does not select. *)
Lemma resolve_at (min_n : nat) (st : string) (c : Np.mask) (p : nat) :
  nth p (resolve min_n st c) false = true -> nth p c false = true.
Proof.
  unfold resolve; destruct (negb (contains "|" st)); [|auto].
  apply truncate_at.
Qed.

Lemma untouched_at (min_n : nat) (st : string) (c : Np.mask) (p : nat) :
  nth p (Np.eq_mask c (resolve min_n st c)) true
  = Bool.eqb (nth p c false) (nth p (resolve min_n st c) false).
Proof.
  unfold Np.eq_mask.
  apply (nth_zip_with Bool.eqb c (resolve min_n st c) false false).
  symmetry; apply resolve_length.
Qed.

Lemma cascade_at (c3 u : Np.mask) (p : nat) :
  length c3 = length u ->
  nth p (zip_with andb c3 u) false = nth p c3 false && nth p u true.
Proof. intros H; exact (nth_zip_with andb c3 u false true p H). Qed.

Lemma disjoint_at (a b : Np.mask) (p : nat) :
  disjoint a b = true -> nth p a false && nth p b false = false.
Proof.
  unfold disjoint; revert b p; induction a as [|x a IH]; intros [|y b] p H;
    simpl in *; try (destruct p; reflexivity).
  - destruct p; apply andb_false_r.
  - apply andb_prop in H as [Hxy H].
    destruct p; [destruct x, y; auto; discriminate | apply IH; exact H].
Qed.

(** A mask disjoint from [c] is left alone by the cascade of [c]. *)
Lemma cascade_disjoint (min_n : nat) (st : string) (c c3 : Np.mask) :
  length c3 = length c ->
  disjoint c c3 = true ->
  zip_with andb c3 (Np.eq_mask c (resolve min_n st c)) = c3.
Proof.
  intros Hlen Hdis.
  pose proof (untouched_length min_n st c) as Hu.
  apply (nth_ext _ _ false false).
  - rewrite zip_with_length; congruence.
  - intros p _; rewrite cascade_at by congruence.
    rewrite untouched_at.
    pose proof (disjoint_at _ _ p Hdis) as Hp.
    pose proof (resolve_at min_n st c p) as Hsub.
    destruct (nth p c3 false), (nth p c false),
      (nth p (resolve min_n st c) false); simpl in *;
      try reflexivity; try discriminate.
    discriminate (Hsub eq_refl).
Qed.

End Pointwise.

Section EqualiserCardinality.

Variable min_n : nat.

Lemma shrink_pure_sum_le (sts : list string) (cs : list Np.mask) :
  Forall (fun st => contains "|" st = false) sts ->
  Forall (fun o => Np.sum o <= min_n) (shrink_pure min_n sts cs).
Proof.
  intros Hsts; revert cs; induction Hsts as [|st sts Hst _ IH];
    intros [|c later]; simpl; auto.
  constructor; [|apply IH].
  unfold resolve; rewrite Hst; simpl; rewrite truncate_sum; lia.
Qed.

Lemma shrink_pure_disjoint (sts : list string) (cs : list Np.mask)
  (L : nat) :
  Forall (fun st => contains "|" st = false) sts ->
  Forall (fun c => length c = L) cs ->
  Forall (fun c => min_n <= Np.sum c) cs ->
  pairwise_disjoint cs = true ->
  Forall (fun o => Np.sum o = min_n) (shrink_pure min_n sts cs).
Proof.
  intros Hsts; revert cs; induction Hsts as [|st sts Hst _ IH];
    intros [|c later] Hlen Hsum Hdis; simpl; auto.
  inversion Hlen as [|? ? Hc Hlater]; subst.
  inversion Hsum as [|? ? Hsc Hslater]; subst.
  simpl in Hdis; apply andb_prop in Hdis as [Hhead Hrest].
  rewrite forallb_forall in Hhead; rewrite Forall_forall in Hlater.
  assert (Hsame : map (fun c3 => zip_with andb c3
                                   (Np.eq_mask c (resolve min_n st c))) later
                  = later).
  { rewrite <- (map_id later) at 2; apply map_ext_in; intros c3 Hin.
    apply cascade_disjoint; [apply Hlater | apply Hhead]; exact Hin. }
  rewrite Hsame; constructor.
  - unfold resolve; rewrite Hst; simpl; rewrite truncate_sum; lia.
  - apply IH; auto. apply Forall_forall; exact Hlater.
Qed.

End EqualiserCardinality.

Lemma np_min_spec (l : list nat) :
  l <> [] ->
  exists m, Np.min l = Ok m /\ In m l /\ Forall (fun x => m <= x) l.
Proof.
  destruct l as [|x r]; [congruence|]; intros _.
  destruct (fold_min_spec r x) as [Hin Hle].
  eexists; split; [reflexivity|]; split; [exact Hin|].
  apply Forall_forall; exact Hle.
Qed.

(** [C2] (as amended) For every list of two or more masks of one trial
    count whose expressions contain no [|], the size equaliser under a
    qualifying tier returns one output mask per input mask; every output
    mask has cardinality at most the minimum true-count [min_n] of the
    input masks, the first one exactly [min_n]; and all output masks have
    cardinality exactly [min_n] when the input masks are pairwise
    disjoint. *)
Theorem equalize_cardinality (tier : option string) (cs : list Np.mask)
  (sts : list string) (L : nat) :
  tier_qualifies tier = true ->
  2 <= length cs ->
  length sts = length cs ->
  Forall (fun c => length c = L) cs ->
  Forall (fun st => contains "|" st = false) sts ->
  exists min_n outs,
    Np.min (map Np.sum cs) = Ok min_n /\
    shrink tier cs sts = Ok outs /\
    length outs = length cs /\
    Forall (fun o => Np.sum o <= min_n) outs /\
    (exists o rest, outs = o :: rest /\ Np.sum o = min_n) /\
    (pairwise_disjoint cs = true ->
     Forall (fun o => Np.sum o = min_n) outs).
Proof.
  intros Htier Hn Hlen Hshape Hsts.
  destruct (np_min_spec (map Np.sum cs)) as (m & Hmin & _ & Hle).
  { destruct cs; simpl in *; [lia | discriminate]. }
  assert (Hsum : Forall (fun c => m <= Np.sum c) cs).
  { rewrite Forall_map in Hle; exact Hle. }
  exists m, (shrink_pure m sts cs).
  split; [exact Hmin|]; split.
  { unfold shrink; rewrite Htier, Hmin; simpl.
    apply (shrink_loop_pure L); exact Hshape. }
  split; [apply shrink_pure_length; exact Hlen|].
  split; [apply shrink_pure_sum_le; exact Hsts|].
  split.
  - destruct cs as [|c later]; [simpl in Hn; lia|].
    destruct sts as [|st sts]; [discriminate|]; simpl.
    do 2 eexists; split; [reflexivity|].
    inversion Hsts as [|? ? Hst _]; subst.
    inversion Hsum as [|? ? Hc _]; subst.
    unfold resolve; rewrite Hst; simpl; rewrite truncate_sum; lia.
  - intros Hdis; apply (shrink_pure_disjoint m sts cs L); assumption.
Qed.

Lemma equalize_cardinality_witness :
  exists min_n outs,
    Np.min (map Np.sum [[true; true; true; false];
                        [false; false; false; true]]) = Ok min_n /\
    shrink (Some "train"%string)
      [[true; true; true; false]; [false; false; false; true]]
      ["stimulus.Clip"; "~stimulus.Clip"]%string = Ok outs /\
    length outs = 2 /\
    Forall (fun o => Np.sum o <= min_n) outs /\
    (exists o rest, outs = o :: rest /\ Np.sum o = min_n) /\
    (pairwise_disjoint [[true; true; true; false];
                        [false; false; false; true]] = true ->
     Forall (fun o => Np.sum o = min_n) outs).
Proof.
  apply (equalize_cardinality (Some "train"%string)
           [[true; true; true; false]; [false; false; false; true]]
           ["stimulus.Clip"; "~stimulus.Clip"]%string 4).
  - reflexivity.
  - simpl; lia.
  - reflexivity.
  - repeat constructor.
  - repeat constructor.
Defined.

(** [C2] (counterexample) Two member datasets over the same four trials
    with the overlapping expressions [~stimulus.Monet2] and
    [stimulus.Trippy]: the masks have 4 and 2 true entries, so the minimum
    is 2, but after equalisation the second mask is empty. *)
Lemma equalize_overlap_unequal :
  get_constraints unit [(tt, overlap_fixture); (tt, overlap_fixture)]
    (Some "train"%string) overlap_types false
  = Ok [[true; true; true; true]; [false; false; true; true]] /\
  Np.min (map Np.sum [[true; true; true; true]; [false; false; true; true]])
  = Ok 2 /\
  get_constraints unit [(tt, overlap_fixture); (tt, overlap_fixture)]
    (Some "train"%string) overlap_types true
  = Ok [[true; true; false; false]; [false; false; false; false]] /\
  ~ (exists outs,
       shrink (Some "train"%string)
         [[true; true; true; true]; [false; false; true; true]]
         overlap_types = Ok outs /\
       Forall (fun o => Np.sum o = 2) outs).
Proof.
  split; [reflexivity|]; split; [reflexivity|]; split; [reflexivity|].
  intros (outs & Hrun & Hall).
  vm_compute in Hrun; inversion Hrun; subst outs.
  inversion Hall as [|? ? _ Hrest]; subst.
  inversion Hrest as [|? ? Hzero _]; subst.
  discriminate Hzero.
Qed.

(** Masks of different trial counts make the in-place AND raise. *)
Example shrink_shape_mismatch :
  shrink None [[true; true]; [true; true; true]]
    ["stimulus.Clip"; "~stimulus.Clip"]%string
  = Raise ValueError.
Proof. reflexivity. Qed.

(** [C6] There are three masks without union over the same ten trials, the
    first two sharing a prefix of four true positions and the minimum
    true-count 2 cutting inside that prefix, for which the third mask comes
    out differently when the equaliser processes the order [M1, M2, M3]
    than when it processes the order [M3, M1, M2]. *)
Theorem equalizer_order_dependent :
  exists (m1 m2 m3 : Np.mask) (k min_n : nat) (e : string),
    length m1 = 10 /\ length m2 = 10 /\ length m3 = 10 /\
    contains "|" e = false /\
    firstn k m1 = repeat true k /\ firstn k m2 = repeat true k /\
    Np.min (map Np.sum [m1; m2; m3]) = Ok min_n /\ min_n < k /\
    exists o1 o2 o3 p3 p1 p2,
      shrink None [m1; m2; m3] [e; e; e] = Ok [o1; o2; o3] /\
      shrink None [m3; m1; m2] [e; e; e] = Ok [p3; p1; p2] /\
      o3 <> p3.
Proof.
  exists M1, M2, M3, 4, 2, "stimulus.Clip"%string.
  repeat (split; [reflexivity|]).
  split; [lia|].
  do 6 eexists; split; [reflexivity|]; split; [reflexivity|].
  discriminate.
Qed.

Section UnionMasks.

Variables (min_n L : nat).

Lemma shrink_pure_shape (sts : list string) (cs : list Np.mask) :
  Forall (fun c => length c = L) cs ->
  Forall (fun c => length c = L) (shrink_pure min_n sts cs).
Proof.
  revert cs; induction sts as [|st sts IH]; intros [|c later] H; simpl; auto.
  inversion H as [|? ? Hc Hlater]; subst; constructor.
  - apply resolve_length.
  - apply IH, cascade_lengths; [apply untouched_length | exact Hlater].
Qed.

Lemma lost_before_cascade (u : Np.mask) (p : nat) (later outs : list Np.mask)
  (k : nat) :
  Forall (fun c => length c = length u) later ->
  nth p u true = true ->
  lost_before (map (fun c3 => zip_with andb c3 u) later) outs k p
  = lost_before later outs k p.
Proof.
  intros Hlen Hu; revert outs k; induction Hlen as [|c later Hc _ IH];
    intros outs k; [reflexivity|].
  destruct outs as [|o outs]; [destruct k; reflexivity|].
  destruct k as [|k]; [reflexivity|].
  unfold lost_before in *; simpl.
  rewrite IH, (cascade_at c u p Hc), Hu, andb_true_r; reflexivity.
Qed.

(** What the loop returns for a mask with a union: its input without the
    trials that one of the masks before it has lost. *)
Lemma shrink_pure_union (sts : list string) (cs : list Np.mask)
  (k : nat) (st : string) (c o : Np.mask) (p : nat) :
  Forall (fun c => length c = L) cs ->
  nth_error sts k = Some st ->
  contains "|" st = true ->
  nth_error cs k = Some c ->
  nth_error (shrink_pure min_n sts cs) k = Some o ->
  nth p o false
  = nth p c false && negb (lost_before cs (shrink_pure min_n sts cs) k p).
Proof.
  revert cs k c; induction sts as [|st0 sts IH];
    intros cs k c Hshape Hst Hpipe Hc Ho.
  { destruct k; discriminate. }
  destruct cs as [|c0 later]; [destruct k; discriminate|].
  pose proof (Forall_inv Hshape) as Hc0; simpl in Hc0.
  pose proof (Forall_inv_tail Hshape) as Hlater.
  simpl in Ho |- *.
  destruct k as [|k]; simpl in *.
  - inversion Hst; inversion Hc; subst st0 c0.
    unfold resolve in Ho; rewrite Hpipe in Ho; simpl in Ho.
    inversion Ho; subst o.
    unfold lost_before; simpl; rewrite ?andb_true_r; reflexivity.
  - set (c2 := resolve min_n st0 c0) in *.
    set (u := Np.eq_mask c0 c2) in *.
    assert (Hu : length u = length c0) by apply untouched_length.
    assert (Hlater' : Forall (fun c => length c = length u) later)
      by (revert Hlater; apply Forall_impl; intros; congruence).
    assert (Hcl : length c = length u).
    { rewrite Forall_forall in Hlater'; apply Hlater'.
      eapply nth_error_In; exact Hc. }
    assert (Hshape' : Forall (fun c => length c = L)
                        (map (fun c3 => zip_with andb c3 u) later))
      by (apply cascade_lengths; [congruence | exact Hlater]).
    assert (Hc' : nth_error (map (fun c3 => zip_with andb c3 u) later) k
                  = Some (zip_with andb c u))
      by exact (map_nth_error (fun c3 => zip_with andb c3 u) k later Hc).
    rewrite (IH _ k _ Hshape' Hst Hpipe Hc' Ho).
    rewrite (cascade_at c u p Hcl).
    unfold u, c2; rewrite untouched_at; fold c2; fold u.
    change (lost_before (c0 :: later) (c2 :: ?outs) (S k) p)
      with ((nth p c0 false && negb (nth p c2 false))
            || lost_before later outs k p).
    destruct (Bool.eqb (nth p c0 false) (nth p c2 false)) eqn:E.
    + rewrite lost_before_cascade; auto.
      * apply Bool.eqb_prop in E; rewrite E.
        rewrite andb_negb_r, andb_true_r; reflexivity.
      * unfold u, c2; rewrite untouched_at; exact E.
    + pose proof (resolve_at min_n st0 c0 p) as Hsub; fold c2 in Hsub.
      destruct (nth p c0 false), (nth p c2 false); simpl in *;
        try discriminate; rewrite ?andb_false_r; auto.
      discriminate (Hsub eq_refl).
Qed.

End UnionMasks.

(** [C5] (as amended) For every list of masks of one trial count processed
    by the size equaliser, a mask whose expression contains a union [|] is
    returned without truncation of its own: it is its input value without
    the trials that a mask earlier in the processing order has lost
    (selected in that mask's input, not in its output).  It is exactly its
    input value when it is the first mask, or when no earlier mask has lost
    a trial. *)
Theorem union_mask_passthrough (tier : option string) (cs outs : list Np.mask)
  (sts : list string) (L k : nat) (st : string) (c o : Np.mask) :
  tier_qualifies tier = true ->
  Forall (fun c => length c = L) cs ->
  shrink tier cs sts = Ok outs ->
  nth_error sts k = Some st ->
  contains "|" st = true ->
  nth_error cs k = Some c ->
  nth_error outs k = Some o ->
  length o = length c /\
  (forall p, nth p o false
             = nth p c false && negb (lost_before cs outs k p)) /\
  ((forall p, lost_before cs outs k p = false) -> o = c) /\
  (k = 0 -> o = c).
Proof.
  intros Htier Hshape Hrun Hst Hpipe Hc Ho.
  unfold shrink in Hrun; rewrite Htier in Hrun.
  destruct (Np.min (map Np.sum cs)) as [m|] eqn:Hmin; [|discriminate].
  simpl in Hrun; rewrite (shrink_loop_pure L) in Hrun by exact Hshape.
  inversion Hrun; subst outs; clear Hrun.
  assert (Hlen : length o = length c).
  { pose proof (shrink_pure_shape m L sts cs Hshape) as Houts.
    rewrite Forall_forall in Houts, Hshape.
    rewrite (Houts o), (Hshape c); eauto using nth_error_In. }
  assert (Hat : forall p, nth p o false
                = nth p c false
                  && negb (lost_before cs (shrink_pure m sts cs) k p)).
  { intros p; apply (shrink_pure_union m L sts cs k st); assumption. }
  assert (Hfree : (forall p, lost_before cs (shrink_pure m sts cs) k p = false)
                  -> o = c).
  { intros Hnone; apply (nth_ext _ _ false false Hlen); intros p _.
    rewrite Hat, Hnone; apply andb_true_r. }
  repeat split; auto.
  intros ->; apply Hfree; reflexivity.
Qed.

Lemma union_mask_passthrough_witness :
  length [true; false; false; true] = length [true; true; true; true] /\
  (forall p,
     nth p [true; false; false; true] false
     = nth p [true; true; true; true] false
       && negb (lost_before
                  [[true; true; true; false]; [false; false; false; true];
                   [true; true; true; true]]
                  [[true; false; false; false]; [false; false; false; true];
                   [true; false; false; true]] 2 p)) /\
  ((forall p,
      lost_before
        [[true; true; true; false]; [false; false; false; true];
         [true; true; true; true]]
        [[true; false; false; false]; [false; false; false; true];
         [true; false; false; true]] 2 p = false) ->
   [true; false; false; true] = [true; true; true; true]) /\
  (2 = 0 -> [true; false; false; true] = [true; true; true; true]).
Proof.
  apply (union_mask_passthrough (Some "train"%string)
           [[true; true; true; false]; [false; false; false; true];
            [true; true; true; true]]
           [[true; false; false; false]; [false; false; false; true];
            [true; false; false; true]]
           split_types 4 2 "stimulus.Clip|~stimulus.Clip").
  - reflexivity.
  - repeat constructor.
  - reflexivity.
  - reflexivity.
  - reflexivity.
  - reflexivity.
  - reflexivity.
Defined.

(** [C5] (counterexample) Three member datasets over the same four trials
    with the stimulus types of the size-matched split configuration: the
    mask of [stimulus.Clip|~stimulus.Clip] selects all four trials before
    equalisation and only the first and the last one after it. *)
Lemma union_mask_changed :
  let datasets :=
    [(tt, split_fixture); (tt, split_fixture); (tt, split_fixture)] in
  get_constraints unit datasets (Some "train"%string) split_types false
  = Ok [[true; true; true; false]; [false; false; false; true];
        [true; true; true; true]] /\
  get_constraints unit datasets (Some "train"%string) split_types true
  = Ok [[true; false; false; false]; [false; false; false; true];
        [true; false; false; true]] /\
  nth_error split_types 2 = Some "stimulus.Clip|~stimulus.Clip"%string /\
  contains "|" "stimulus.Clip|~stimulus.Clip" = true /\
  ~ (forall outs o,
       shrink (Some "train"%string)
         [[true; true; true; false]; [false; false; false; true];
          [true; true; true; true]] split_types = Ok outs ->
       nth_error outs 2 = Some o ->
       o = [true; true; true; true]).
Proof.
  repeat (split; [reflexivity|]).
  intros H.
  specialize (H _ [true; false; false; true] eq_refl eq_refl).
  discriminate H.
Qed.

(** ** The balanced loader without merged noise types *)

Section Unbound.

Variable key : Type.
Variable DataLoader : Dataset -> Sampler -> Z -> result Loader.
Variable self_stimulus_type : string.

Lemma make_loader_unbound (dataset : Dataset) (batch_size : Z)
  (constraint : Np.mask) :
  make_loader DataLoader dataset (Some "train"%string) batch_size true false
    constraint
  = Raise UnboundLocalError.
Proof. reflexivity. Qed.

End Unbound.

(** [C10] For every call of [get_loaders] with [tier='train'],
    [balanced=True] and [merge_noise_types=False]: once the masks are
    built, the first dataset of the loop makes the call raise the
    unbound-variable error for [types], before [BalancedSubsetSampler] is
    entered; a call only returns when there is no dataset to loop over,
    and then it returns no loader at all.  (A call whose masks cannot be
    built raises that earlier error.) *)
Theorem balanced_without_merge_unbound (key : Type)
  (DataLoader : Dataset -> Sampler -> Z -> result Loader)
  (self_stimulus_type : string) (datasets : list (key * Dataset))
  (batch_size : Z) (stimulus_types : stimulus_types_arg)
  (shrink_to_same_size : bool) :
  let sts :=
    resolve_stimulus_types self_stimulus_type (length datasets)
      stimulus_types in
  let run :=
    get_loaders key DataLoader self_stimulus_type datasets
      (Some "train"%string) batch_size stimulus_types true false
      shrink_to_same_size in
  run = (constraints <- get_constraints key datasets (Some "train"%string)
                          sts shrink_to_same_size ;;
         match loader_items key datasets sts constraints with
         | [] => Ok []
         | _ :: _ => Raise UnboundLocalError
         end)
  /\ (forall loaders, run = Ok loaders -> loaders = []).
Proof.
  intros sts run.
  assert (Heq : run
                = (constraints <- get_constraints key datasets
                                    (Some "train"%string) sts
                                    shrink_to_same_size ;;
                   match loader_items key datasets sts constraints with
                   | [] => Ok []
                   | _ :: _ => Raise UnboundLocalError
                   end)).
  { unfold run, get_loaders; fold sts.
    destruct (get_constraints key datasets (Some "train"%string) sts
                shrink_to_same_size) as [constraints|e]; [|reflexivity].
    cbn [bind].
    destruct (loader_items key datasets sts constraints)
      as [|[[k dataset] constraint] rest]; [reflexivity|].
    cbn [make_loaders]; rewrite make_loader_unbound; reflexivity. }
  split; [exact Heq|].
  intros loaders Hrun; rewrite Heq in Hrun.
  destruct (get_constraints key datasets (Some "train"%string) sts
              shrink_to_same_size) as [constraints|e]; [|discriminate].
  cbn [bind] in Hrun.
  destruct (loader_items key datasets sts constraints);
    [inversion Hrun; reflexivity | discriminate].
Qed.

(** The same call with one dataset, with and without merged noise types. *)
Example balanced_loader_needs_merge :
  let DataLoader := fun (_ : Dataset) s b => Ok (mkLoader s b) in
  let dataset :=
    mkDataset ["stimulus.Clip"; "stimulus.Monet2"; "stimulus.Trippy"]%string
              ["train"; "train"; "train"]%string in
  let expr := StStr "stimulus.Clip|~stimulus.Clip" in
  get_loaders unit DataLoader "stimulus.Clip" [(tt, dataset)]
    (Some "train"%string) 1%Z expr true false false
  = Raise UnboundLocalError /\
  exists s,
    get_loaders unit DataLoader "stimulus.Clip" [(tt, dataset)]
      (Some "train"%string) 1%Z expr true true false
    = Ok [(tt, mkLoader (BalancedSubset s) 1%Z)] /\
    BalancedSubsetSampler_len s = Ok 1.
Proof.
  split; [reflexivity|].
  eexists; split; reflexivity.
Qed.

(* ===================================================================== *)
(** * Further properties of the selection masks *)
(* ===================================================================== *)

Section MaskFacts.

Lemma no_sep_split (sep : ascii) (s : string) :
  contains sep s = false -> split sep s = [s].
Proof.
  induction s as [|c r IH]; simpl; [reflexivity|].
  intros H; apply orb_false_elim in H as [Hc Hr].
  rewrite Hc, (IH Hr); reflexivity.
Qed.

Lemma contains_lstrip (c : ascii) (s : string) :
  contains c s = false -> contains c (lstrip s) = false.
Proof.
  induction s as [|d r IH]; simpl; [reflexivity|].
  intros H; destruct (is_space d); [|exact H].
  apply orb_false_elim in H as [_ Hr]; exact (IH Hr).
Qed.

Lemma contains_rstrip (c : ascii) (s : string) :
  contains c s = false -> contains c (rstrip s) = false.
Proof.
  induction s as [|d r IH]; simpl; [reflexivity|].
  intros H; apply orb_false_elim in H as [Hd Hr].
  destruct (is_space d && String.eqb (rstrip r) EmptyString);
    [reflexivity|].
  simpl; rewrite Hd, (IH Hr); reflexivity.
Qed.

Lemma rstrip_idem (s : string) : rstrip (rstrip s) = rstrip s.
Proof.
  induction s as [|d r IH]; simpl; [reflexivity|].
  destruct (is_space d && String.eqb (rstrip r) EmptyString) eqn:E;
    [reflexivity|].
  simpl; rewrite IH, E; reflexivity.
Qed.

Lemma rstrip_keeps_head (s : string) :
  lstrip s = s -> lstrip (rstrip s) = rstrip s.
Proof.
  destruct s as [|d r]; simpl; [reflexivity|].
  destruct (is_space d) eqn:E; simpl; [|rewrite E; reflexivity].
  destruct (String.eqb (rstrip r) EmptyString); [reflexivity|].
  simpl; rewrite E.
  intros H; exfalso.
  assert (Hlen : String.length (lstrip r) <= String.length r).
  { clear; induction r as [|a r IH]; simpl; [lia|].
    destruct (is_space a); simpl; lia. }
  rewrite H in Hlen; simpl in Hlen; lia.
Qed.

Lemma lstrip_idem (s : string) : lstrip (lstrip s) = lstrip s.
Proof.
  induction s as [|d r IH]; simpl; [reflexivity|].
  destruct (is_space d) eqn:E; [exact IH|].
  simpl; rewrite E; reflexivity.
Qed.

(** Trimming twice is trimming once. *)
Lemma strip_idem (s : string) : strip (strip s) = strip s.
Proof.
  unfold strip.
  rewrite (rstrip_keeps_head _ (lstrip_idem s)); apply rstrip_idem.
Qed.

Lemma startswith_rstrip (c : ascii) (s : string) :
  startswith c s = false -> startswith c (rstrip s) = false.
Proof.
  destruct s as [|d r]; simpl; [reflexivity|].
  destruct (is_space d && String.eqb (rstrip r) EmptyString); auto.
Qed.

Lemma zip_or_comm (a b : Np.mask) : zip_with orb a b = zip_with orb b a.
Proof.
  revert b; induction a as [|x a IH]; intros [|y b]; simpl; auto.
  f_equal; [apply orb_comm | apply IH].
Qed.

Lemma sum_le_length (m : Np.mask) : Np.sum m <= length m.
Proof. induction m as [|b m IH]; simpl; [lia|]; destruct b; lia. Qed.

Lemma sum_zip_and_le (a b : Np.mask) :
  Np.sum (zip_with andb a b) <= Np.sum a.
Proof.
  revert b; induction a as [|x a IH]; intros [|y b]; simpl; try lia.
  specialize (IH b); destruct x, y; simpl; lia.
Qed.

Lemma selected_single (dataset : Dataset) (const : string) :
  selected dataset [const]
  = map (fun ty => token_match ty const) (types dataset).
Proof.
  unfold selected; apply map_ext; intros ty; simpl; apply orb_false_r.
Qed.

End MaskFacts.



(** [X2] Without a tier filter, the mask of the negated token [~A] is the
    elementwise complement of the mask of [A], for every [A] that has no
    [|], no leading whitespace and no leading [~]. *)
Theorem negated_token_complement (dataset : Dataset) (A : string) :
  contains "|" A = false ->
  lstrip A = A ->
  startswith "~" A = false ->
  get_constraint dataset (String "~" A) None
  = (m <- get_constraint dataset A None ;; Ok (map negb m)).
Proof.
  intros Hpipe Hlead Htilde.
  rewrite !get_constraint_spec.
  assert (Hs : split "|"%char (String "~" A) = [String "~" A]).
  { apply no_sep_split; simpl; exact Hpipe. }
  rewrite Hs, (no_sep_split _ _ Hpipe); simpl.
  rewrite !selected_single, map_map; f_equal.
  apply map_ext; intros ty.
  unfold strip; rewrite Hlead; simpl.
  unfold token_match; simpl.
  rewrite (startswith_rstrip _ _ Htilde); reflexivity.
Qed.

Lemma negated_token_complement_witness :
  get_constraint blank_fixture "~stimulus.Clip" None
  = Ok [false; true; false].
Proof.
  exact (negated_token_complement blank_fixture "stimulus.Clip"
           eq_refl eq_refl eq_refl).
Defined.

(** [X3] The expression [A|~A] (the third stimulus type of the split
    configurations) selects every trial when there is no tier filter, for
    every [A] that has no [|], no leading whitespace and no leading [~]. *)
Theorem token_or_negation_selects_all (dataset : Dataset) (A : string) :
  contains "|" A = false ->
  lstrip A = A ->
  startswith "~" A = false ->
  get_constraint dataset (A ++ String "|" (String "~" A)) None
  = Ok (repeat true (length (types dataset))).
Proof.
  intros Hpipe Hlead Htilde.
  rewrite get_constraint_spec, split_join, map_app, selected_app.
  assert (Hs : split "|"%char (String "~" A) = [String "~" A]).
  { apply no_sep_split; simpl; exact Hpipe. }
  rewrite Hs, (no_sep_split _ _ Hpipe); simpl.
  rewrite !selected_single, zip_with_map; f_equal.
  unfold strip; rewrite Hlead; simpl.
  unfold token_match; simpl.
  rewrite (startswith_rstrip _ _ Htilde).
  induction (types dataset) as [|ty l IH]; simpl; [reflexivity|].
  rewrite orb_negb_r, IH; reflexivity.
Qed.

Lemma token_or_negation_selects_all_witness :
  get_constraint blank_fixture "stimulus.Clip|~stimulus.Clip" None
  = Ok [true; true; true].
Proof.
  exact (token_or_negation_selects_all blank_fixture "stimulus.Clip"
           eq_refl eq_refl eq_refl).
Defined.

(** [X4] The order of the two sides of a union does not matter: the
    expressions [A|B] and [B|A] give the same mask (or the same error). *)
Theorem union_commutes (dataset : Dataset) (A B : string)
  (tier : option string) :
  get_constraint dataset (A ++ String "|" B) tier
  = get_constraint dataset (B ++ String "|" A) tier.
Proof.
  rewrite !get_constraint_spec, !split_join, !map_app, !selected_app.
  rewrite zip_or_comm; reflexivity.
Qed.

(** [X5] For a dataset with one tier label per trial, mask construction
    with a tier filter selects a subset of what it selects without one,
    and no mask selects more trials than the dataset has. *)
Theorem tier_filter_only_removes (dataset : Dataset) (expr : string)
  (tier : option string) :
  length (tiers dataset) = length (types dataset) ->
  exists m m0,
    get_constraint dataset expr tier = Ok m /\
    get_constraint dataset expr None = Ok m0 /\
    (forall p, nth p m false = true -> nth p m0 false = true) /\
    Np.sum m <= Np.sum m0 /\
    Np.sum m0 <= length (types dataset).
Proof.
  intros Hlen; rewrite !get_constraint_spec.
  set (sel := selected dataset (map strip (split "|"%char expr))).
  assert (Hsel : length sel = length (types dataset))
    by apply selected_length.
  pose proof (sum_le_length sel) as Hbound; rewrite Hsel in Hbound.
  destruct tier as [t|]; simpl.
  - assert (Htv : length sel = length (Np.eq_str (tiers dataset) t))
      by (unfold Np.eq_str; rewrite length_map; congruence).
    unfold Np.and_; rewrite (broadcast_same _ _ _ Htv).
    do 2 eexists; split; [reflexivity|]; split; [reflexivity|].
    split; [|split; [apply sum_zip_and_le | exact Hbound]].
    intros p H.
    pose proof (nth_zip_with andb sel _ false false p Htv) as E.
    cbn [andb] in E; rewrite E in H.
    apply andb_prop in H as [H _]; exact H.
  - exists sel, sel; repeat split; auto.
Qed.

Lemma tier_filter_only_removes_witness :
  exists m m0,
    get_constraint blank_fixture "stimulus.Clip" (Some "train"%string)
    = Ok m /\
    get_constraint blank_fixture "stimulus.Clip" None = Ok m0 /\
    (forall p, nth p m false = true -> nth p m0 false = true) /\
    Np.sum m <= Np.sum m0 /\
    Np.sum m0 <= 3.
Proof.
  exact (tier_filter_only_removes blank_fixture "stimulus.Clip"
           (Some "train"%string) eq_refl).
Defined.

(** [X6] Whitespace around an expression without [|] is ignored: the
    expression and its trimmed form give the same mask. *)
Theorem surrounding_whitespace_ignored (dataset : Dataset) (expr : string)
  (tier : option string) :
  contains "|" expr = false ->
  get_constraint dataset expr tier
  = get_constraint dataset (strip expr) tier.
Proof.
  intros Hpipe; rewrite !get_constraint_spec.
  rewrite (no_sep_split _ _ Hpipe).
  rewrite (no_sep_split "|"%char (strip expr))
    by (apply contains_rstrip, contains_lstrip, Hpipe).
  simpl; rewrite strip_idem; reflexivity.
Qed.

Lemma surrounding_whitespace_ignored_witness :
  get_constraint blank_fixture "  stimulus.Clip " (Some "train"%string)
  = get_constraint blank_fixture "stimulus.Clip" (Some "train"%string).
Proof.
  exact (surrounding_whitespace_ignored blank_fixture "  stimulus.Clip "
           (Some "train"%string) eq_refl).
Defined.

(* ===================================================================== *)
(** * Further properties of the size equaliser *)
(* ===================================================================== *)

Section EqualiserFacts.

(** Truncation keeps a prefix of the selected trials. *)
Lemma where_truncate_from (i acc k : nat) (c : Np.mask) :
  Np.where_from i
    (zip_with andb c (Np.le_scalar (Np.cumsum_from acc c) k))
  = firstn (k - acc) (Np.where_from i c).
Proof.
  revert i acc; induction c as [|b r IH]; intros i acc; simpl.
  - rewrite firstn_nil; reflexivity.
  - rewrite IH; destruct b; simpl.
    + destruct (acc + 1 <=? k) eqn:E.
      * apply Nat.leb_le in E.
        replace (k - acc) with (S (k - (acc + 1))) by lia; reflexivity.
      * apply Nat.leb_gt in E.
        replace (k - (acc + 1)) with 0 by lia.
        replace (k - acc) with 0 by lia; reflexivity.
    + rewrite Nat.add_0_r; reflexivity.
Qed.

Lemma where_truncate (min_n : nat) (c : Np.mask) :
  Np.where_ (truncate min_n c) = firstn min_n (Np.where_ c).
Proof.
  unfold Np.where_, truncate, Np.cumsum; rewrite where_truncate_from.
  rewrite Nat.sub_0_r; reflexivity.
Qed.

Lemma truncate_from_id (acc k : nat) (c : Np.mask) :
  acc + Np.sum c <= k ->
  zip_with andb c (Np.le_scalar (Np.cumsum_from acc c) k) = c.
Proof.
  revert acc; induction c as [|b r IH]; intros acc H; simpl in *;
    [reflexivity|].
  rewrite IH by (destruct b; lia).
  destruct b; simpl; [|reflexivity].
  destruct (acc + 1 <=? k) eqn:E; [reflexivity|].
  apply Nat.leb_gt in E; lia.
Qed.

(** A mask with at most [min_n] selected trials is not truncated. *)
Lemma truncate_id (min_n : nat) (c : Np.mask) :
  Np.sum c <= min_n -> truncate min_n c = c.
Proof. intros H; apply truncate_from_id; simpl; exact H. Qed.

Lemma eq_mask_refl (c : Np.mask) :
  Np.eq_mask c c = repeat true (length c).
Proof.
  unfold Np.eq_mask; induction c as [|b c IH]; simpl; [reflexivity|].
  rewrite IH, Bool.eqb_reflx; reflexivity.
Qed.

Lemma zip_and_true (c : Np.mask) (n : nat) :
  length c = n -> zip_with andb c (repeat true n) = c.
Proof.
  revert n; induction c as [|b c IH]; intros [|n] H; simpl in *;
    try discriminate; auto.
  rewrite andb_true_r, IH by lia; reflexivity.
Qed.

Lemma shrink_pure_unchanged (min_n L : nat) (sts : list string)
  (cs : list Np.mask) :
  Forall (fun c => length c = L) cs ->
  Forall2 (fun st c => contains "|" st = true \/ Np.sum c <= min_n) sts cs ->
  shrink_pure min_n sts cs = cs.
Proof.
  intros Hshape H; induction H as [|st c sts later Hst _ IH]; simpl;
    [reflexivity|].
  pose proof (Forall_inv Hshape) as Hc; simpl in Hc.
  pose proof (Forall_inv_tail Hshape) as Hlater.
  assert (Hres : resolve min_n st c = c).
  { unfold resolve; destruct Hst as [-> | Hsum]; [reflexivity|].
    destruct (negb (contains "|" st)); [apply truncate_id; exact Hsum|].
    reflexivity. }
  rewrite Hres, eq_mask_refl.
  assert (Hsame : map (fun c3 => zip_with andb c3 (repeat true (length c)))
                    later = later).
  { rewrite <- (map_id later) at 2; apply map_ext_in; intros c3 Hin.
    rewrite Forall_forall in Hlater.
    apply zip_and_true; rewrite (Hlater c3 Hin); congruence. }
  rewrite Hsame, (IH Hlater); reflexivity.
Qed.

Lemma shrink_pure_submask (min_n L : nat) (sts : list string)
  (cs : list Np.mask) (k : nat) (c o : Np.mask) (p : nat) :
  Forall (fun c => length c = L) cs ->
  nth_error cs k = Some c ->
  nth_error (shrink_pure min_n sts cs) k = Some o ->
  nth p o false = true -> nth p c false = true.
Proof.
  revert cs k c; induction sts as [|st sts IH]; intros cs k c Hshape Hc Ho.
  { destruct cs; destruct k; discriminate. }
  destruct cs as [|c0 later]; [destruct k; discriminate|].
  pose proof (Forall_inv Hshape) as Hc0; simpl in Hc0.
  pose proof (Forall_inv_tail Hshape) as Hlater.
  destruct k as [|k]; simpl in Hc, Ho.
  - inversion Hc; inversion Ho; subst; apply resolve_at.
  - set (u := Np.eq_mask c0 (resolve min_n st c0)) in *.
    assert (Hu : length u = length c0) by apply untouched_length.
    assert (Hcl : length c = length u).
    { rewrite Forall_forall in Hlater; rewrite (Hlater c); [congruence|].
      eapply nth_error_In; exact Hc. }
    intros Hp.
    assert (Hp' : nth p (zip_with andb c u) false = true).
    { apply (IH (map (fun c3 => zip_with andb c3 u) later) k); auto.
      - apply cascade_lengths; [congruence | exact Hlater].
      - exact (map_nth_error (fun c3 => zip_with andb c3 u) k later Hc). }
    rewrite (cascade_at c u p Hcl) in Hp'.
    apply andb_prop in Hp' as [Hp' _]; exact Hp'.
Qed.

Lemma shrink_pure_disjoint_eq (min_n L : nat) (sts : list string)
  (cs : list Np.mask) :
  Forall (fun c => length c = L) cs ->
  pairwise_disjoint cs = true ->
  shrink_pure min_n sts cs = zip_with (resolve min_n) sts cs.
Proof.
  revert cs; induction sts as [|st sts IH]; intros [|c later] Hshape Hdis;
    simpl; auto.
  pose proof (Forall_inv Hshape) as Hc; simpl in Hc.
  pose proof (Forall_inv_tail Hshape) as Hlater.
  simpl in Hdis; apply andb_prop in Hdis as [Hhead Hrest].
  rewrite forallb_forall in Hhead.
  assert (Hsame : map (fun c3 => zip_with andb c3
                                   (Np.eq_mask c (resolve min_n st c))) later
                  = later).
  { rewrite <- (map_id later) at 2; apply map_ext_in; intros c3 Hin.
    rewrite Forall_forall in Hlater.
    apply cascade_disjoint; [rewrite (Hlater c3 Hin); congruence|].
    apply Hhead; exact Hin. }
  rewrite Hsame, IH; auto.
Qed.

Lemma nth_error_zip_with {A B C : Type} (f : A -> B -> C) (a : list A)
  (b : list B) (k : nat) (x : A) (y : B) :
  nth_error a k = Some x -> nth_error b k = Some y ->
  nth_error (zip_with f a b) k = Some (f x y).
Proof.
  revert b k; induction a as [|x0 a IH]; intros [|y0 b] [|k] Ha Hb;
    simpl in *; try discriminate.
  - inversion Ha; inversion Hb; reflexivity.
  - apply IH; assumption.
Qed.

(** The bound on masks without union, for any list of masks. *)
Lemma shrink_loop_sum_le (min_n : nat) (sts : list string)
  (cs outs : list Np.mask) (k : nat) (st : string) (o : Np.mask) :
  shrink_loop min_n sts cs = Ok outs ->
  nth_error sts k = Some st ->
  contains "|" st = false ->
  nth_error outs k = Some o ->
  Np.sum o <= min_n.
Proof.
  revert cs outs k; induction sts as [|st0 sts IH];
    intros cs outs k Hrun Hst Hpipe Ho.
  { destruct k; discriminate. }
  destruct cs as [|c later]; simpl in Hrun.
  { inversion Hrun; subst; destruct k; discriminate. }
  destruct (mapM _ later) as [later'|] eqn:E1; simpl in Hrun;
    [|discriminate].
  destruct (shrink_loop min_n sts later') as [outs'|] eqn:E2;
    simpl in Hrun; [|discriminate].
  inversion Hrun; subst outs; clear Hrun.
  destruct k as [|k]; simpl in Hst, Ho.
  - inversion Hst; inversion Ho; subst.
    unfold resolve; rewrite Hpipe; simpl; rewrite truncate_sum; lia.
  - exact (IH _ _ _ E2 Hst Hpipe Ho).
Qed.

End EqualiserFacts.

(** [X7] For masks of one trial count the size equaliser only removes
    trials: every output mask has the length of its input mask and selects
    no trial that the input mask does not select, union or not. *)
Theorem equalize_only_removes (tier : option string)
  (cs outs : list Np.mask) (sts : list string) (L k : nat)
  (c o : Np.mask) :
  Forall (fun c => length c = L) cs ->
  shrink tier cs sts = Ok outs ->
  nth_error cs k = Some c ->
  nth_error outs k = Some o ->
  length o = length c /\
  forall p, nth p o false = true -> nth p c false = true.
Proof.
  intros Hshape Hrun Hc Ho; unfold shrink in Hrun.
  destruct (tier_qualifies tier).
  - destruct (Np.min (map Np.sum cs)) as [m|]; [|discriminate].
    simpl in Hrun; rewrite (shrink_loop_pure L) in Hrun by exact Hshape.
    inversion Hrun; subst outs; split.
    + pose proof (shrink_pure_shape m L sts cs Hshape) as Houts.
      rewrite Forall_forall in Houts, Hshape.
      rewrite (Houts o), (Hshape c); eauto using nth_error_In.
    + intros p; apply (shrink_pure_submask m L sts cs k); assumption.
  - inversion Hrun; subst outs.
    rewrite Hc in Ho; inversion Ho; subst; auto.
Qed.

Lemma equalize_only_removes_witness :
  length [true; false; false; true] = length [true; true; true; true] /\
  forall p, nth p [true; false; false; true] false = true ->
            nth p [true; true; true; true] false = true.
Proof.
  apply (equalize_only_removes (Some "train"%string)
           [[true; true; true; false]; [false; false; false; true];
            [true; true; true; true]]
           [[true; false; false; false]; [false; false; false; true];
            [true; false; false; true]]
           split_types 4 2).
  - repeat constructor.
  - reflexivity.
  - reflexivity.
  - reflexivity.
Defined.

(** [X8] For pairwise disjoint masks of one trial count, a mask without
    union keeps exactly its first [min_n] selected trials, in trial
    order: its index list after equalisation is the first [min_n] entries
    of its index list before. *)
Theorem equalize_keeps_prefix (tier : option string)
  (cs outs : list Np.mask) (sts : list string) (L min_n k : nat)
  (st : string) (c o : Np.mask) :
  tier_qualifies tier = true ->
  Forall (fun c => length c = L) cs ->
  pairwise_disjoint cs = true ->
  Np.min (map Np.sum cs) = Ok min_n ->
  shrink tier cs sts = Ok outs ->
  nth_error sts k = Some st ->
  contains "|" st = false ->
  nth_error cs k = Some c ->
  nth_error outs k = Some o ->
  Np.where_ o = firstn min_n (Np.where_ c).
Proof.
  intros Htier Hshape Hdis Hmin Hrun Hst Hpipe Hc Ho.
  unfold shrink in Hrun; rewrite Htier, Hmin in Hrun; simpl in Hrun.
  rewrite (shrink_loop_pure L) in Hrun by exact Hshape.
  inversion Hrun; subst outs.
  rewrite (shrink_pure_disjoint_eq min_n L) in Ho by assumption.
  rewrite (nth_error_zip_with _ _ _ _ _ _ Hst Hc) in Ho.
  inversion Ho; subst o.
  unfold resolve; rewrite Hpipe; simpl; apply where_truncate.
Qed.

Lemma equalize_keeps_prefix_witness :
  Np.where_ [true; false; false; false]
  = firstn 1 (Np.where_ [true; true; true; false]).
Proof.
  apply (equalize_keeps_prefix (Some "train"%string)
           [[true; true; true; false]; [false; false; false; true]]
           [[true; false; false; false]; [false; false; false; true]]
           ["stimulus.Clip"; "~stimulus.Clip"]%string 4 1 0
           "stimulus.Clip"); try reflexivity.
  repeat constructor.
Defined.

(** [X9] The size equaliser changes nothing when every mask either comes
    from a union expression or already has at most the minimum number
    [min_n] of selected trials (masks of one trial count, one expression
    per mask). *)
Theorem equalize_noop_when_equal (tier : option string)
  (cs : list Np.mask) (sts : list string) (L min_n : nat) :
  Forall (fun c => length c = L) cs ->
  (tier_qualifies tier = true -> Np.min (map Np.sum cs) = Ok min_n) ->
  Forall2 (fun st c => contains "|" st = true \/ Np.sum c <= min_n) sts cs ->
  shrink tier cs sts = Ok cs.
Proof.
  intros Hshape Hmin Hall; unfold shrink.
  destruct (tier_qualifies tier); [|reflexivity].
  rewrite (Hmin eq_refl); simpl.
  rewrite (shrink_loop_pure L) by exact Hshape.
  f_equal; apply (shrink_pure_unchanged min_n L); assumption.
Qed.

Lemma equalize_noop_when_equal_witness :
  shrink (Some "validation"%string)
    [[true; false; false]; [false; true; false]; [true; true; true]]
    split_types
  = Ok [[true; false; false]; [false; true; false]; [true; true; true]].
Proof.
  apply (equalize_noop_when_equal (Some "validation"%string)
           [[true; false; false]; [false; true; false]; [true; true; true]]
           split_types 3 1).
  - repeat constructor.
  - reflexivity.
  - apply Forall2_cons; [right; simpl; lia|].
    apply Forall2_cons; [right; simpl; lia|].
    apply Forall2_cons; [left; reflexivity|].
    apply Forall2_nil.
Defined.

(** [X10] Whatever the shapes and the other expressions, every mask
    without union that the size equaliser returns has at most [min_n]
    selected trials; when some input mask is empty, every such output mask
    is empty. *)
Theorem equalize_bound_without_union (tier : option string)
  (cs outs : list Np.mask) (sts : list string) (min_n k : nat)
  (st : string) (o : Np.mask) :
  tier_qualifies tier = true ->
  Np.min (map Np.sum cs) = Ok min_n ->
  shrink tier cs sts = Ok outs ->
  nth_error sts k = Some st ->
  contains "|" st = false ->
  nth_error outs k = Some o ->
  Np.sum o <= min_n /\
  (In 0 (map Np.sum cs) -> Np.sum o = 0).
Proof.
  intros Htier Hmin Hrun Hst Hpipe Ho.
  unfold shrink in Hrun; rewrite Htier, Hmin in Hrun; simpl in Hrun.
  pose proof (shrink_loop_sum_le _ _ _ _ _ _ _ Hrun Hst Hpipe Ho) as Hle.
  split; [exact Hle|].
  intros Hzero.
  destruct (map Np.sum cs) as [|x r] eqn:E; [destruct Hzero|].
  simpl in Hmin; inversion Hmin as [Hm].
  destruct (fold_min_spec r x) as [_ Hall].
  specialize (Hall 0 Hzero); lia.
Qed.

Lemma equalize_bound_without_union_witness :
  Np.sum [false; false] <= 0 /\
  (In 0 (map Np.sum [[true; true]; [false; false]]) ->
   Np.sum [false; false] = 0).
Proof.
  apply (equalize_bound_without_union None
           [[true; true]; [false; false]] [[false; false]; [false; false]]
           ["stimulus.Clip"; "stimulus.Monet2"]%string 0 0 "stimulus.Clip");
    reflexivity.
Defined.

(** [X11] With no dataset at all, [get_loaders] raises a [ValueError] (the
    minimum of an empty list) when [shrink_to_same_size] is set and the
    tier is [None], ['train'] or ['validation']; in every other case it
    returns the empty dictionary of loaders. *)
Theorem get_loaders_no_dataset (key : Type)
  (DataLoader : Dataset -> Sampler -> Z -> result Loader)
  (self_stimulus_type : string) (tier : option string) (batch_size : Z)
  (stimulus_types : stimulus_types_arg)
  (balanced merge_noise_types shrink_to_same_size : bool) :
  get_loaders key DataLoader self_stimulus_type [] tier batch_size
    stimulus_types balanced merge_noise_types shrink_to_same_size
  = if shrink_to_same_size && tier_qualifies tier then Raise ValueError
    else Ok [].
Proof.
  unfold get_loaders, get_constraints, shrink; simpl.
  destruct shrink_to_same_size; simpl; [|reflexivity].
  destruct (tier_qualifies tier); reflexivity.
Qed.

(* ===================================================================== *)
(** * Further properties of the samplers *)
(* ===================================================================== *)

Section SamplerFacts.

Lemma take_seq_from {A : Type} (pre l : list A) :
  Np.take (pre ++ l) (seq (length pre) (length l)) = Ok l.
Proof.
  unfold Np.take; revert pre; induction l as [|x l IH]; intros pre; simpl;
    [reflexivity|].
  rewrite nth_error_app2, Nat.sub_diag by lia; simpl.
  replace (pre ++ x :: l) with ((pre ++ [x]) ++ l)
    by (rewrite <- app_assoc; reflexivity).
  replace (S (length pre)) with (length (pre ++ [x]))
    by (rewrite length_app; simpl; lia).
  rewrite IH; reflexivity.
Qed.

Lemma take_members {A : Type} (a : list A) (ix : list nat) (out : list A) :
  Np.take a ix = Ok out -> Forall (fun x => In x a) out.
Proof.
  unfold Np.take; revert out; induction ix as [|i ix IH]; simpl; intros out H.
  - inversion H; constructor.
  - destruct (nth_error a i) as [x|] eqn:E; simpl in H; [|discriminate].
    destruct (mapM _ ix) as [ys|]; simpl in H; [|discriminate].
    inversion H; subst; constructor; [|apply IH; reflexivity].
    eapply nth_error_In; exact E.
Qed.

Lemma take_out_of_range {A : Type} (a : list A) (ix : list nat) :
  Exists (fun i => length a <= i) ix -> Np.take a ix = Raise IndexError.
Proof.
  unfold Np.take; induction 1 as [i ix Hi | i ix _ IH]; simpl.
  - apply nth_error_None in Hi; rewrite Hi; reflexivity.
  - destruct (nth_error a i); [|reflexivity].
    simpl; rewrite IH; reflexivity.
Qed.

Lemma fold_max_spec (r : list nat) (x : nat) :
  In (fold_left Nat.max r x) (x :: r)
  /\ forall y, In y (x :: r) -> y <= fold_left Nat.max r x.
Proof.
  revert x; induction r as [|z r IH]; intros x; simpl.
  - split; [auto|intros y [->|[]]; lia].
  - destruct (IH (Nat.max x z)) as [Hin Hle]; split.
    + destruct Hin as [Heq|Hin]; [|auto].
      rewrite <- Heq; destruct (Nat.max_dec x z) as [E|E]; rewrite E; auto.
    + intros y Hy.
      assert (Nat.max x z <= fold_left Nat.max r (Nat.max x z))
        by (apply Hle; left; reflexivity).
      destruct Hy as [->|[->|Hy]]; [lia|lia|].
      apply Hle; right; exact Hy.
Qed.

(** The values of [Counter(sel)] are the occurrence counts of the labels
    of [sel]. *)
Lemma values_Counter (sel : list string) (v : nat) :
  In v (values (Counter sel))
  <-> exists e, In e sel /\ v = count_occ string_dec sel e.
Proof.
  unfold values; rewrite in_map_iff; split.
  - intros ([e n] & Hv & Hin); simpl in Hv; subst n.
    apply Counter_spec in Hin; exists e; exact Hin.
  - intros (e & He & Hv); exists (e, v); split; [reflexivity|].
    apply Counter_spec; auto.
Qed.

Lemma values_Counter_not_nil (sel : list string) :
  sel <> [] -> values (Counter sel) <> [].
Proof.
  destruct sel as [|e sel]; [congruence|]; intros _ H.
  assert (Hin : In (count_occ string_dec (e :: sel) e)
                   (values (Counter (e :: sel))))
    by (apply values_Counter; exists e; split; [left|]; reflexivity).
  rewrite H in Hin; destruct Hin.
Qed.

Lemma inv_count_get (c : counter) (t : string) :
  In t (map fst c) ->
  inv_count c t = (1 # Pos.of_nat (counter_get c t))%Q.
Proof.
  induction c as [|[k n] r IH]; simpl; [intros []|].
  destruct (String.eqb k t) eqn:E; [reflexivity|].
  intros [Hk|Hin]; [|exact (IH Hin)].
  subst k; rewrite String.eqb_refl in E; discriminate.
Qed.

Lemma inv_count_Counter (sel : list string) :
  map (inv_count (Counter sel)) sel
  = map (fun t => (1 # Pos.of_nat (count_occ string_dec sel t))%Q) sel.
Proof.
  apply map_ext_in; intros t Ht.
  destruct (Counter_fold sel []) as (Hget & _ & _); simpl in Hget.
  fold (Counter sel) in Hget.
  rewrite inv_count_get, Hget; [reflexivity|].
  apply (in_map fst _ (t, count_occ string_dec sel t)).
  apply Counter_spec; auto.
Qed.

(** What [__init__] builds once the labels of the indices are read. *)
Lemma init_unfold (indices : list nat) (types sel : list string)
  (mode : string) :
  Np.take types indices = Ok sel ->
  BalancedSubsetSampler_init indices types mode
  = (attrs <- (if String.eqb mode "longest" then
                 m <- py_max (values (Counter sel)) ;; Ok (Some m, Some true)
               else if String.eqb mode "shortest" then
                 m <- Np.min (values (Counter sel)) ;; Ok (Some m, Some false)
               else Ok (None, None)) ;;
     Ok (mkBalanced indices (fst attrs) (snd attrs)
           (map (inv_count (Counter sel)) sel))).
Proof.
  intros Htake; unfold BalancedSubsetSampler_init; rewrite Htake.
  cbn [bind].
  rewrite (take_then_map (inv_count (Counter sel)) _ _ _ Htake).
  destruct (if String.eqb mode "longest" then _ else _); reflexivity.
Qed.

Lemma sum_zero_where (m : Np.mask) (i : nat) :
  Np.sum m = 0 -> Np.where_from i m = [].
Proof.
  revert i; induction m as [|b m IH]; intros i H; simpl in *; [reflexivity|].
  destruct b; [discriminate|]; apply IH; exact H.
Qed.

End SamplerFacts.

(** [X12] Iterating a [SubsetSequentialSampler] yields exactly its index
    list, in the given order, for every index list; so two iterations
    yield the same sequence, of the length that [len] reports. *)
Theorem sequential_iter_is_indices (indices : list nat) :
  SubsetSequentialSampler_iter indices = Ok indices /\
  sampler_len (SubsetSequentialSampler indices) = Ok (length indices).
Proof.
  split; [|reflexivity].
  exact (take_seq_from [] indices).
Qed.

(** [X13] In 'shortest' mode, for every non-empty index list within the
    bounds of the label array, construction succeeds with sampling without
    replacement, and the length of the sampler is the smallest occurrence
    count among the labels of the selected indices: some label occurs
    exactly that often, none less often, and the length is between 1 and
    the number of indices. *)
Theorem balanced_shortest_is_min (indices : list nat)
  (types sel : list string) :
  Np.take types indices = Ok sel ->
  indices <> [] ->
  exists s m,
    BalancedSubsetSampler_init indices types "shortest" = Ok s /\
    BalancedSubsetSampler_len s = Ok m /\
    replacement s = Some false /\
    (exists e, In e sel /\ count_occ string_dec sel e = m) /\
    (forall e, In e sel -> m <= count_occ string_dec sel e) /\
    1 <= m <= length indices.
Proof.
  intros Htake Hne.
  assert (Hlen : length sel = length indices)
    by (eapply mapM_length; exact Htake).
  assert (Hsel : sel <> [])
    by (intros ->; destruct indices; [congruence | discriminate]).
  destruct (np_min_spec _ (values_Counter_not_nil sel Hsel))
    as (m & Hmin & Hin & Hle).
  rewrite (init_unfold _ _ _ _ Htake); cbn [String.eqb Ascii.eqb Bool.eqb].
  rewrite Hmin; cbn [bind fst snd].
  exists (mkBalanced indices (Some m) (Some false)
            (map (inv_count (Counter sel)) sel)), m.
  split; [reflexivity|]; split; [reflexivity|]; split; [reflexivity|].
  apply values_Counter in Hin as (e & He & Hm).
  rewrite Forall_forall in Hle.
  split; [exists e; auto|]; split.
  - intros e' He'; apply Hle, values_Counter; exists e'; auto.
  - pose proof (count_occ_bound string_dec e sel).
    apply (count_occ_In string_dec) in He; lia.
Qed.

Lemma balanced_shortest_is_min_witness :
  exists s m,
    BalancedSubsetSampler_init [0; 2; 3; 4] clip3_noise7 "shortest" = Ok s /\
    BalancedSubsetSampler_len s = Ok m /\
    replacement s = Some false /\
    (exists e, In e ["Clip"; "Noise"; "Clip"; "Noise"]%string /\
               count_occ string_dec ["Clip"; "Noise"; "Clip"; "Noise"]%string e
               = m) /\
    (forall e, In e ["Clip"; "Noise"; "Clip"; "Noise"]%string ->
               m <= count_occ string_dec
                      ["Clip"; "Noise"; "Clip"; "Noise"]%string e) /\
    1 <= m <= 4.
Proof.
  apply (balanced_shortest_is_min [0; 2; 3; 4] clip3_noise7
           ["Clip"; "Noise"; "Clip"; "Noise"]%string).
  - reflexivity.
  - discriminate.
Defined.

(** [X14] In 'longest' mode, for every non-empty index list within the
    bounds of the label array, construction succeeds with sampling with
    replacement, and the length of the sampler is the largest occurrence
    count among the labels of the selected indices. *)
Theorem balanced_longest_is_max (indices : list nat)
  (types sel : list string) :
  Np.take types indices = Ok sel ->
  indices <> [] ->
  exists s m,
    BalancedSubsetSampler_init indices types "longest" = Ok s /\
    BalancedSubsetSampler_len s = Ok m /\
    replacement s = Some true /\
    (exists e, In e sel /\ count_occ string_dec sel e = m) /\
    (forall e, In e sel -> count_occ string_dec sel e <= m).
Proof.
  intros Htake Hne.
  assert (Hlen : length sel = length indices)
    by (eapply mapM_length; exact Htake).
  assert (Hsel : sel <> [])
    by (intros ->; destruct indices; [congruence | discriminate]).
  pose proof (values_Counter_not_nil sel Hsel) as Hvals.
  rewrite (init_unfold _ _ _ _ Htake); cbn [String.eqb Ascii.eqb Bool.eqb].
  unfold py_max.
  destruct (values (Counter sel)) as [|x r] eqn:E; [congruence|].
  cbn [bind fst snd].
  destruct (fold_max_spec r x) as [Hin Hle]; rewrite <- E in Hin, Hle.
  do 2 eexists.
  split; [reflexivity|]; split; [reflexivity|]; split; [reflexivity|].
  apply values_Counter in Hin as (e & He & Hm).
  split; [exists e; auto|].
  intros e' He'; apply Hle, values_Counter; exists e'; auto.
Qed.

Lemma balanced_longest_is_max_witness :
  exists s m,
    BalancedSubsetSampler_init (seq 0 10) clip3_noise7 "longest" = Ok s /\
    BalancedSubsetSampler_len s = Ok m /\
    replacement s = Some true /\
    (exists e, In e clip3_noise7 /\
               count_occ string_dec clip3_noise7 e = m) /\
    (forall e, In e clip3_noise7 ->
               count_occ string_dec clip3_noise7 e <= m).
Proof.
  apply (balanced_longest_is_max (seq 0 10) clip3_noise7 clip3_noise7).
  - reflexivity.
  - discriminate.
Defined.

(** [X15] A balanced sampler cannot be built from an empty index list:
    construction raises a [ValueError] in both modes, and so does
    [get_loaders]' loader construction for balanced training with merged
    noise types on a dataset whose mask selects no trial. *)
Theorem balanced_empty_raises
  (DataLoader : Dataset -> Sampler -> Z -> result Loader)
  (dataset : Dataset) (batch_size : Z) (constraint : Np.mask)
  (types : list string) :
  BalancedSubsetSampler_init [] types "shortest" = Raise ValueError /\
  BalancedSubsetSampler_init [] types "longest" = Raise ValueError /\
  (Np.sum constraint = 0 ->
   make_loader DataLoader dataset (Some "train"%string) batch_size true true
     constraint
   = Raise ValueError).
Proof.
  split; [reflexivity|]; split; [reflexivity|].
  intros Hsum; unfold make_loader, Np.where_.
  rewrite (sum_zero_where _ _ Hsum); reflexivity.
Qed.

(** [X16] With a mode other than 'longest' and 'shortest', construction
    still succeeds for indices within bounds, but the sampler has no
    length: the length query and every iteration raise an
    [AttributeError]. *)
Theorem balanced_unknown_mode (indices : list nat)
  (types sel : list string) (mode : string) :
  Np.take types indices = Ok sel ->
  mode <> "longest"%string ->
  mode <> "shortest"%string ->
  exists s,
    BalancedSubsetSampler_init indices types mode = Ok s /\
    BalancedSubsetSampler_len s = Raise AttributeError /\
    forall (rng : Type)
           (multinomial : rng -> list Q -> nat -> bool -> list nat)
           (g : rng),
      BalancedSubsetSampler_iter rng multinomial s g = Raise AttributeError.
Proof.
  intros Htake Hl Hs.
  apply String.eqb_neq in Hl; apply String.eqb_neq in Hs.
  rewrite (init_unfold _ _ _ _ Htake), Hl, Hs; cbn [bind fst snd].
  eexists; split; [reflexivity|]; split; reflexivity.
Qed.

Lemma balanced_unknown_mode_witness :
  exists s,
    BalancedSubsetSampler_init [0; 1] clip3_noise7 "median" = Ok s /\
    BalancedSubsetSampler_len s = Raise AttributeError /\
    forall (rng : Type)
           (multinomial : rng -> list Q -> nat -> bool -> list nat)
           (g : rng),
      BalancedSubsetSampler_iter rng multinomial s g = Raise AttributeError.
Proof.
  apply (balanced_unknown_mode [0; 1] clip3_noise7
           ["Clip"; "Noise"]%string "median").
  - reflexivity.
  - discriminate.
  - discriminate.
Defined.

(** [X17] An index beyond the end of the label array makes the
    construction of a balanced sampler raise an [IndexError], in every
    mode. *)
Theorem balanced_index_out_of_range (indices : list nat)
  (types : list string) (mode : string) :
  Exists (fun i => length types <= i) indices ->
  BalancedSubsetSampler_init indices types mode = Raise IndexError.
Proof.
  intros H; unfold BalancedSubsetSampler_init.
  rewrite (take_out_of_range _ _ H); reflexivity.
Qed.

Lemma balanced_index_out_of_range_witness :
  BalancedSubsetSampler_init [0; 10] clip3_noise7 "shortest"
  = Raise IndexError.
Proof.
  apply (balanced_index_out_of_range [0; 10] clip3_noise7 "shortest").
  apply Exists_cons_tl, Exists_cons_hd; simpl; lia.
Defined.

(** [X18] Every balanced sampler that construction returns has one weight
    per index, and the weight of an index is one over the number of
    selected indices that carry the same label. *)
Theorem balanced_weights_inverse_frequency (indices : list nat)
  (types sel : list string) (mode : string) (s : BalancedSubsetSampler) :
  Np.take types indices = Ok sel ->
  BalancedSubsetSampler_init indices types mode = Ok s ->
  Samplers.indices s = indices /\
  length (weights s) = length indices /\
  weights s
  = map (fun t => (1 # Pos.of_nat (count_occ string_dec sel t))%Q) sel.
Proof.
  intros Htake Hinit; rewrite (init_unfold _ _ _ _ Htake) in Hinit.
  destruct (if String.eqb mode "longest" then _ else _) as [attrs|];
    cbn [bind] in Hinit; [|discriminate].
  inversion Hinit; subst s; cbn [Samplers.indices weights].
  split; [reflexivity|]; split.
  - rewrite length_map; eapply mapM_length; exact Htake.
  - apply inv_count_Counter.
Qed.

Lemma balanced_weights_inverse_frequency_witness :
  exists s,
    BalancedSubsetSampler_init [0; 1; 2] clip3_noise7 "shortest" = Ok s /\
    weights s = [(1 # 1)%Q; (1 # 2)%Q; (1 # 2)%Q].
Proof.
  eexists; split; [reflexivity|].
  exact (proj2 (proj2 (balanced_weights_inverse_frequency [0; 1; 2]
                         clip3_noise7 ["Clip"; "Noise"; "Noise"]%string
                         "shortest" _ eq_refl eq_refl))).
Defined.

(** [X19] Every iteration of a balanced sampler built in 'shortest' mode
    emits as many indices as its length, each of them a member of the
    index list it was built from, whatever positions [torch.multinomial]
    draws within its contract. *)
Theorem balanced_iter_members (indices : list nat) (types : list string)
  (s : BalancedSubsetSampler) (rng : Type)
  (multinomial : rng -> list Q -> nat -> bool -> list nat) (g : rng) :
  BalancedSubsetSampler_init indices types "shortest" = Ok s ->
  (forall w n r, n <= length w ->
     length (multinomial g w n r) = n /\
     Forall (fun i => i < length w) (multinomial g w n r)) ->
  exists m out,
    BalancedSubsetSampler_len s = Ok m /\
    BalancedSubsetSampler_iter rng multinomial s g = Ok out /\
    length out = m /\
    Forall (fun x => In x indices) out.
Proof.
  intros Hinit Hdraw.
  destruct (Np.take types indices) as [sel|e] eqn:Htake.
  2: { unfold BalancedSubsetSampler_init in Hinit; rewrite Htake in Hinit.
       discriminate. }
  assert (Hlen : length sel = length indices)
    by (eapply mapM_length; exact Htake).
  rewrite (init_unfold _ _ _ _ Htake) in Hinit.
  cbn [String.eqb Ascii.eqb Bool.eqb] in Hinit.
  destruct (Np.min (values (Counter sel))) as [m|] eqn:Hmin;
    cbn [bind fst snd] in Hinit; [|discriminate].
  inversion Hinit; subst s; clear Hinit.
  assert (Hm : m <= length sel).
  { destruct (values (Counter sel)) as [|x r] eqn:E; [discriminate|].
    simpl in Hmin; injection Hmin as Hm.
    destruct (fold_min_spec r x) as [Hin _]; rewrite <- E in Hin.
    apply values_Counter in Hin as (e & _ & He).
    rewrite <- Hm, He; apply count_occ_bound. }
  unfold BalancedSubsetSampler_len, BalancedSubsetSampler_iter; simpl.
  destruct (Hdraw (map (inv_count (Counter sel)) sel) m false)
    as [Hn Hrange]; [rewrite length_map; exact Hm|].
  rewrite length_map, Hlen in Hrange.
  destruct (take_in_range indices _ Hrange) as (out & Hout & Hlo).
  exists m, out; split; [reflexivity|]; split; [exact Hout|].
  split; [congruence|].
  eapply take_members; exact Hout.
Qed.

Lemma balanced_iter_members_witness :
  exists s m out,
    BalancedSubsetSampler_init [1; 3; 5] clip3_noise7 "shortest" = Ok s /\
    BalancedSubsetSampler_len s = Ok m /\
    BalancedSubsetSampler_iter unit (fun _ _ n _ => seq 0 n) s tt = Ok out /\
    length out = m /\
    Forall (fun x => In x [1; 3; 5]) out.
Proof.
  eexists.
  destruct (balanced_iter_members [1; 3; 5] clip3_noise7 _ unit
              (fun _ _ n _ => seq 0 n) tt eq_refl) as (m & out & H).
  - intros w n r Hn; split; [apply length_seq|].
    apply Forall_forall; intros i Hi; apply in_seq in Hi; lia.
  - exists m, out; split; [reflexivity | exact H].
Defined.

(* ===================================================================== *)
(** * Further properties of [get_loaders] *)
(* ===================================================================== *)

(** One step of case analysis on the leading character of a string. *)
Ltac crack_char t :=
  destruct t as [|[[] [] [] [] [] [] [] []] t]; try reflexivity.

Section LoaderFacts.

Variable key : Type.
Variable DataLoader : Dataset -> Sampler -> Z -> result Loader.
Variable self_stimulus_type : string.

(** Outside the training tier the loader does not depend on the flags
    [balanced] and [merge_noise_types]. *)
Lemma make_loader_not_train (dataset : Dataset) (tier : option string)
  (batch_size : Z) (b m b' m' : bool) (constraint : Np.mask) :
  tier <> Some "train"%string ->
  make_loader DataLoader dataset tier batch_size b m constraint
  = make_loader DataLoader dataset tier batch_size b' m' constraint.
Proof.
  intros H; unfold make_loader.
  destruct tier as [t|]; [|reflexivity].
  crack_char t. crack_char t. crack_char t. crack_char t. crack_char t.
  destruct t; [congruence | reflexivity].
Qed.

Lemma make_loaders_not_train (items : list ((key * Dataset) * Np.mask))
  (tier : option string) (batch_size : Z) (b m b' m' : bool) :
  tier <> Some "train"%string ->
  make_loaders key DataLoader items tier batch_size b m
  = make_loaders key DataLoader items tier batch_size b' m'.
Proof.
  intros H; induction items as [|[[k d] c] rest IH]; simpl; [reflexivity|].
  rewrite (make_loader_not_train d tier batch_size b m b' m' c H), IH.
  reflexivity.
Qed.

Lemma make_loaders_keys (items : list ((key * Dataset) * Np.mask))
  (tier : option string) (batch_size : Z) (b m : bool)
  (loaders : list (key * Loader)) :
  make_loaders key DataLoader items tier batch_size b m = Ok loaders ->
  map fst loaders = map (fun it => fst (fst it)) items.
Proof.
  revert loaders; induction items as [|[[k d] c] rest IH]; simpl;
    intros loaders H.
  - inversion H; reflexivity.
  - destruct (make_loader _ _ _ _ _ _ _) as [loader|]; simpl in H;
      [|discriminate].
    destruct (make_loaders _ _ _ _ _ _ _) as [ls|]; simpl in H;
      [|discriminate].
    inversion H; subst; simpl; f_equal; apply IH; reflexivity.
Qed.

Lemma shrink_loop_length (min_n : nat) (sts : list string)
  (cs outs : list Np.mask) :
  shrink_loop min_n sts cs = Ok outs ->
  length outs = Nat.min (length sts) (length cs).
Proof.
  revert cs outs; induction sts as [|st sts IH]; intros cs outs H.
  { inversion H; reflexivity. }
  destruct cs as [|c later]; simpl in H; [inversion H; reflexivity|].
  destruct (mapM _ later) as [later'|] eqn:E1; simpl in H; [|discriminate].
  destruct (shrink_loop min_n sts later') as [outs'|] eqn:E2; simpl in H;
    [|discriminate].
  inversion H; subst; simpl.
  rewrite (IH _ _ E2), (mapM_length _ _ _ E1); reflexivity.
Qed.

Lemma get_constraints_length (datasets : list (key * Dataset))
  (tier : option string) (sts : list string) (sh : bool)
  (constraints : list Np.mask) :
  get_constraints key datasets tier sts sh = Ok constraints ->
  length constraints = Nat.min (length datasets) (length sts).
Proof.
  unfold get_constraints; intros H.
  destruct (mapM _ _) as [cs|] eqn:E; simpl in H; [|discriminate].
  apply mapM_length in E.
  rewrite length_combine, length_map in E.
  destruct sh; [|inversion H; subst; exact E].
  unfold shrink in H; destruct (tier_qualifies tier);
    [|inversion H; subst; exact E].
  destruct (Np.min _) as [m|]; simpl in H; [|discriminate].
  apply shrink_loop_length in H; lia.
Qed.

Lemma combine_keys {A B C : Type} (f : A -> C) (a : list A) (b : list B) :
  map (fun p => f (fst p)) (combine a b) = firstn (length b) (map f a).
Proof.
  revert b; induction a as [|x a IH]; intros [|y b]; simpl; auto.
  - f_equal; apply IH.
Qed.

End LoaderFacts.

(** [X20] When [get_loaders] returns, it returns one loader per dataset
    that has a stimulus type, under the dataset's key and in the order of
    the datasets; datasets beyond the end of a shorter list of stimulus
    types get no loader, and with one stimulus type for all datasets every
    dataset gets one. *)
Theorem get_loaders_keys (key : Type)
  (DataLoader : Dataset -> Sampler -> Z -> result Loader)
  (self_stimulus_type : string) (datasets : list (key * Dataset))
  (tier : option string) (batch_size : Z)
  (stimulus_types : stimulus_types_arg)
  (balanced merge_noise_types shrink_to_same_size : bool)
  (loaders : list (key * Loader)) :
  get_loaders key DataLoader self_stimulus_type datasets tier batch_size
    stimulus_types balanced merge_noise_types shrink_to_same_size
  = Ok loaders ->
  map fst loaders
  = firstn (length (resolve_stimulus_types self_stimulus_type
                      (length datasets) stimulus_types))
           (map fst datasets)
  /\ ((forall l, stimulus_types <> StList l) ->
      map fst loaders = map fst datasets).
Proof.
  intros Hrun; unfold get_loaders in Hrun.
  set (sts := resolve_stimulus_types self_stimulus_type (length datasets)
                stimulus_types) in *.
  destruct (get_constraints key datasets tier sts shrink_to_same_size)
    as [constraints|] eqn:Hc; simpl in Hrun; [|discriminate].
  apply get_constraints_length in Hc.
  apply make_loaders_keys in Hrun.
  assert (Hkeys : map fst loaders = firstn (length sts) (map fst datasets)).
  { rewrite Hrun; unfold loader_items; rewrite map_map; simpl.
    rewrite (combine_keys (fun q : (key * Dataset) * string => fst (fst q))).
    rewrite (combine_keys (fun d : key * Dataset => fst d)).
    rewrite firstn_firstn, Hc.
    destruct (Nat.le_ge_cases (length sts) (length datasets)) as [H|H].
    - f_equal; lia.
    - rewrite Nat.min_l by lia.
      rewrite !firstn_all2 by (rewrite length_map; lia); reflexivity. }
  split; [exact Hkeys|].
  intros Hone; rewrite Hkeys.
  assert (Hlen : length sts = length datasets).
  { subst sts; destruct stimulus_types as [| s | l]; simpl;
      try (unfold list_mul; apply repeat_length).
    exfalso; exact (Hone l eq_refl). }
  rewrite firstn_all2 by (rewrite length_map; lia); reflexivity.
Qed.

Lemma get_loaders_keys_witness :
  let DataLoader := fun (_ : Dataset) s b => Ok (mkLoader s b) in
  exists loaders,
    get_loaders nat DataLoader "stimulus.Clip"
      [(7, blank_fixture); (3, split_fixture); (5, overlap_fixture)]
      (Some "test"%string) 2%Z
      (StList ["stimulus.Clip"; "~stimulus.Clip"]%string)
      false true false
    = Ok loaders /\
    map fst loaders = [7; 3].
Proof.
  intros DataLoader; eexists; split; [reflexivity|].
  exact (proj1 (get_loaders_keys nat DataLoader "stimulus.Clip"
                  [(7, blank_fixture); (3, split_fixture);
                   (5, overlap_fixture)]
                  (Some "test"%string) 2%Z
                  (StList ["stimulus.Clip"; "~stimulus.Clip"]%string)
                  false true false _ eq_refl)).
Defined.

(** [X21] For every tier other than ['train'] (validation, test, or no
    tier), [get_loaders] ignores the flags [balanced] and
    [merge_noise_types]: any two settings of them give the same result. *)
Theorem get_loaders_flags_only_train (key : Type)
  (DataLoader : Dataset -> Sampler -> Z -> result Loader)
  (self_stimulus_type : string) (datasets : list (key * Dataset))
  (tier : option string) (batch_size : Z)
  (stimulus_types : stimulus_types_arg)
  (b m b' m' shrink_to_same_size : bool) :
  tier <> Some "train"%string ->
  get_loaders key DataLoader self_stimulus_type datasets tier batch_size
    stimulus_types b m shrink_to_same_size
  = get_loaders key DataLoader self_stimulus_type datasets tier batch_size
      stimulus_types b' m' shrink_to_same_size.
Proof.
  intros Htier; unfold get_loaders.
  destruct (get_constraints _ _ _ _ _) as [constraints|]; [|reflexivity].
  simpl; apply make_loaders_not_train; exact Htier.
Qed.

Lemma get_loaders_flags_only_train_witness :
  let DataLoader := fun (_ : Dataset) s b => Ok (mkLoader s b) in
  get_loaders unit DataLoader "stimulus.Clip" [(tt, blank_fixture)]
    (Some "validation"%string) 1%Z StNone true false false
  = get_loaders unit DataLoader "stimulus.Clip" [(tt, blank_fixture)]
      (Some "validation"%string) 1%Z StNone false true false.
Proof.
  intros DataLoader.
  apply (get_loaders_flags_only_train unit DataLoader "stimulus.Clip"
           [(tt, blank_fixture)] (Some "validation"%string) 1%Z StNone
           true false false true false).
  discriminate.
Defined.

(* ===================================================================== *)
(** * Further properties of the group assignment *)
(* ===================================================================== *)

Section GroupFacts.

Lemma concat_blocks_length (gs : list nat) (l : list string) :
  length gs = length l ->
  length (concat (zip_with (fun g a => list_mul g a) gs l)) = list_sum gs.
Proof.
  revert l; induction gs as [|g gs IH]; intros [|a l] H; simpl in *;
    try discriminate; auto.
  unfold list_mul at 1; rewrite length_app, repeat_length, IH by lia.
  reflexivity.
Qed.

Lemma concat_blocks_In (gs : list nat) (l : list string) (x : string) :
  length gs = length l ->
  Forall (fun g => 1 <= g) gs ->
  In x (concat (zip_with (fun g a => list_mul g a) gs l)) <-> In x l.
Proof.
  revert l; induction gs as [|g gs IH]; intros [|a l] H Hpos; simpl in *;
    try discriminate; [tauto|].
  pose proof (Forall_inv Hpos) as Hg; simpl in Hg.
  pose proof (Forall_inv_tail Hpos) as Hgs.
  rewrite in_app_iff, IH by (auto; lia).
  unfold list_mul; split; intros [Hx|Hx]; auto.
  - left; symmetry; exact (repeat_spec _ _ _ Hx).
  - left; subst x; destruct g; [lia|left; reflexivity].
Qed.

Lemma rotate_In (t : list string) (p : nat) (x : string) :
  In x (rotate t p) <-> In x t.
Proof.
  unfold rotate; rewrite in_app_iff.
  rewrite <- (firstn_skipn p t) at 3; rewrite in_app_iff; tauto.
Qed.

Lemma group_sizes_length (n T : nat) : length (group_sizes n T) = T.
Proof. unfold group_sizes; rewrite length_map, length_seq; reflexivity. Qed.

Lemma group_sizes_pos (n T : nat) :
  1 <= n / T -> Forall (fun g => 1 <= g) (group_sizes n T).
Proof.
  intros Hq.
  assert (HT : 1 <= T) by (destruct T; [simpl in Hq; lia | lia]).
  rewrite group_sizes_spec by exact HT.
  apply Forall_app; split.
  - apply Forall_forall; intros g Hg.
    apply repeat_spec in Hg; subst g; exact Hq.
  - constructor; [lia | constructor].
Qed.

(** [assign] once the assertion has passed. *)
Lemma assign_ok (t : list string) (n : nat) (permute : Z) :
  1 <= n / length t ->
  assign t n permute
  = Ok (concat (zip_with (fun g a => list_mul g a)
                  (group_sizes n (length t))
                  (rotate t (Z.to_nat (permute mod Z.of_nat (length t)))))).
Proof.
  intros Hq; unfold assign.
  destruct (length t =? 0) eqn:E0.
  - apply Nat.eqb_eq in E0; rewrite E0 in Hq; simpl in Hq; lia.
  - destruct (1 <=? n / length t) eqn:E1; [reflexivity|].
    apply Nat.leb_gt in E1; lia.
Qed.

End GroupFacts.

(** [X22] The permutation offset acts cyclically: offsets that differ by a
    multiple of the number of tokens give the same assignment (or the same
    error), for negative offsets too. *)
Theorem assign_permute_periodic (t : list string) (n : nat)
  (permute k : Z) :
  assign t n (permute + k * Z.of_nat (length t)) = assign t n permute.
Proof.
  unfold assign.
  destruct (length t =? 0); [reflexivity|].
  rewrite Z_mod_plus_full; reflexivity.
Qed.

(** [X23] When the assertion passes, the assignment uses every token and
    only the tokens: a token is given to some member dataset exactly when
    it is in the token list, and there is one token per member dataset. *)
Theorem assign_uses_every_token (t : list string) (n : nat) (permute : Z) :
  1 <= n / length t ->
  exists out,
    assign t n permute = Ok out /\
    length out = n /\
    forall a, In a out <-> In a t.
Proof.
  intros Hq; rewrite (assign_ok t n permute Hq).
  assert (HT : 1 <= length t)
    by (destruct (length t); [simpl in Hq; lia | lia]).
  eexists; split; [reflexivity|]; split.
  - rewrite concat_blocks_length
      by (rewrite group_sizes_length, rotate_length; reflexivity).
    apply group_sizes_sum; exact HT.
  - intros a; rewrite concat_blocks_In.
    + apply rotate_In.
    + rewrite group_sizes_length, rotate_length; reflexivity.
    + apply group_sizes_pos; exact Hq.
Qed.

Lemma assign_uses_every_token_witness :
  exists out,
    assign ["x"; "y"; "z"]%string 4 (-1) = Ok out /\
    length out = 4 /\
    forall a, In a out <-> In a ["x"; "y"; "z"]%string.
Proof.
  apply (assign_uses_every_token ["x"; "y"; "z"]%string 4 (-1)).
  vm_compute; lia.
Defined.

(** [X24] With at least as many member datasets as tokens, [load_data] of
    the split classes raises nothing of its own: it calls
    [super().load_data] with exactly one stimulus type per member dataset,
    each of them a token of the key, and with [balanced] set exactly when
    the key's [balanced] field is non-zero. *)
Theorem load_data_calls_super (R : Type)
  (super_load_data : list string -> bool -> result R)
  (key : SplitKey) (n : nat) :
  length (tokens key) <= n ->
  exists sts,
    length sts = n /\
    (forall a, In a sts <-> In a (tokens key)) /\
    load_data R super_load_data key n
    = super_load_data sts (negb (Z.eqb (balanced key) 0)).
Proof.
  intros Hn.
  assert (HT : 0 < length (tokens key)).
  { pose proof (tokens_not_nil key) as Hne.
    destruct (tokens key); [congruence | simpl; lia]. }
  assert (Hq : 1 <= n / length (tokens key))
    by (apply Nat.div_str_pos; lia).
  unfold load_data; rewrite (assign_ok _ n (permute key) Hq); simpl.
  eexists; split; [|split; [|reflexivity]].
  - rewrite concat_blocks_length
      by (rewrite group_sizes_length, rotate_length; reflexivity).
    apply group_sizes_sum; lia.
  - intros a; rewrite concat_blocks_In.
    + apply rotate_In.
    + rewrite group_sizes_length, rotate_length; reflexivity.
    + apply group_sizes_pos; exact Hq.
Qed.

Lemma load_data_calls_super_witness :
  exists sts,
    length sts = 4 /\
    (forall a, In a sts <-> In a ["stimulus.Clip"; "~stimulus.Clip"]%string) /\
    load_data (list string * bool) (fun l b => Ok (l, b))
      (mkSplitKey "stimulus.Clip, ~stimulus.Clip" 1 1) 4
    = Ok (sts, true).
Proof.
  apply (load_data_calls_super (list string * bool) (fun l b => Ok (l, b))
           (mkSplitKey "stimulus.Clip, ~stimulus.Clip" 1 1) 4).
  vm_compute; lia.
Defined.

(** [X25] When the number of member datasets is a multiple [T * q] of the
    number [T] of tokens, all groups have the same size [q]: each token of
    the rotated list is given to [q] consecutive member datasets. *)
Theorem assign_equal_groups (t : list string) (q : nat) (permute : Z) :
  t <> [] ->
  1 <= q ->
  group_sizes (length t * q) (length t) = repeat q (length t) /\
  assign t (length t * q) permute
  = Ok (flat_map (fun a => repeat a q)
          (rotate t (Z.to_nat (permute mod Z.of_nat (length t))))).
Proof.
  intros Ht Hq.
  assert (HT : 1 <= length t) by (destruct t; [congruence | simpl; lia]).
  assert (Hdiv : length t * q / length t = q)
    by (rewrite Nat.mul_comm; apply Nat.div_mul; lia).
  assert (Hmod : (length t * q) mod length t = 0)
    by (rewrite Nat.mul_comm; apply Nat.Div0.mod_mul).
  assert (Hgs : group_sizes (length t * q) (length t) = repeat q (length t)).
  { rewrite group_sizes_spec by exact HT.
    rewrite Hdiv, Hmod, Nat.add_0_r.
    replace (length t) with (length t - 1 + 1) at 2 by lia.
    rewrite repeat_app; reflexivity. }
  split; [exact Hgs|].
  rewrite assign_ok by (rewrite Hdiv; exact Hq).
  rewrite Hgs; f_equal.
  set (rot := rotate t (Z.to_nat (permute mod Z.of_nat (length t)))).
  assert (Hrot : length rot = length t) by apply rotate_length.
  rewrite <- Hrot; clearbody rot; clear.
  induction rot as [|a l IH]; simpl; [reflexivity|].
  unfold list_mul at 1; rewrite IH; reflexivity.
Qed.

Lemma assign_equal_groups_witness :
  group_sizes 6 3 = [2; 2; 2] /\
  assign ["x"; "y"; "z"]%string 6 1
  = Ok ["y"; "y"; "z"; "z"; "x"; "x"]%string.
Proof.
  apply (assign_equal_groups ["x"; "y"; "z"]%string 2 1).
  - discriminate.
  - lia.
Defined.

(* ===================================================================== *)
(** * Index lists and transform pipelines *)
(* ===================================================================== *)

Import Transforms.

Section IndexLists.

Lemma where_from_length (i : nat) (m : Np.mask) :
  length (Np.where_from i m) = Np.sum m.
Proof.
  revert i; induction m as [|b m IH]; intros i; simpl; [reflexivity|].
  destruct b; simpl; rewrite IH; reflexivity.
Qed.

Lemma where_from_In (i p : nat) (m : Np.mask) :
  In p (Np.where_from i m) <-> i <= p /\ nth (p - i) m false = true.
Proof.
  revert i; induction m as [|b m IH]; intros i; simpl.
  - split; [intros [] | intros [_ H]]; destruct (p - i); discriminate.
  - assert (Hrest : In p (Np.where_from (S i) m)
                    <-> i < p /\ nth (p - i) (b :: m) false = true).
    { rewrite IH; split; intros [Hlt Hn]; split; try lia.
      - replace (p - i) with (S (p - S i)) by lia; exact Hn.
      - replace (p - i) with (S (p - S i)) in Hn by lia; exact Hn. }
    destruct b; simpl In; rewrite ?Hrest.
    + split.
      * intros [->|[Hlt Hn]]; [rewrite Nat.sub_diag; auto | split; [lia|auto]].
      * intros [Hle Hn].
        destruct (Nat.eq_dec i p) as [->|Hne]; [left; reflexivity|].
        right; split; [lia | exact Hn].
    + split; intros [Hle Hn]; split; try lia; try exact Hn.
      destruct (Nat.eq_dec i p) as [->|Hne]; [|lia].
      rewrite Nat.sub_diag in Hn; discriminate.
Qed.

Lemma where_from_lower (i p : nat) (m : Np.mask) :
  In p (Np.where_from i m) -> i <= p.
Proof. intros H; apply where_from_In in H; tauto. Qed.

Lemma where_from_sorted (i : nat) (m : Np.mask) :
  StronglySorted lt (Np.where_from i m).
Proof.
  revert i; induction m as [|b m IH]; intros i; simpl; [constructor|].
  destruct b; [|apply IH].
  constructor; [apply IH|].
  apply Forall_forall; intros p Hp; apply where_from_lower in Hp; lia.
Qed.

Lemma nth_eq_str (a : list string) (s : string) (p : nat) :
  nth p (Np.eq_str a s) false = true <-> nth_error a p = Some s.
Proof.
  unfold Np.eq_str; revert p; induction a as [|x a IH]; intros [|p]; simpl;
    try (split; discriminate).
  - rewrite String.eqb_eq; split; [intros ->; reflexivity|].
    intros H; inversion H; reflexivity.
  - apply IH.
Qed.

End IndexLists.

(** [X26] The sequential sampler that [get_loaders] builds from a mask
    visits exactly the selected trials, each once and in ascending trial
    order: its iteration yields the index list [np.where(mask)[0]], which
    has as many entries as the mask has selected trials, is strictly
    increasing, and contains a trial exactly when the mask selects it. *)
Theorem sequential_visits_selected (constraint : Np.mask) :
  let ix := Np.where_ constraint in
  SubsetSequentialSampler_iter ix = Ok ix /\
  sampler_len (SubsetSequentialSampler ix) = Ok (Np.sum constraint) /\
  StronglySorted lt ix /\
  forall p, In p ix <-> nth p constraint false = true.
Proof.
  intros ix; split; [exact (take_seq_from [] ix)|]; split; [|split].
  - simpl; f_equal; apply where_from_length.
  - apply where_from_sorted.
  - intros p; unfold ix, Np.where_; rewrite where_from_In, Nat.sub_0_r.
    split; [tauto | intros H; split; [lia | exact H]].
Qed.

(** [X27] After [AreaLayerRawMixin.load_data], for neuron arrays of one
    length, a dataset's transforms are those of [add_transforms] with
    [Subsample(idx)] placed immediately before the final [ToTensor]:
    [Subsequence] first in the training tier only, then [Normalizer],
    [Subsample], [ToTensor]; and [idx] holds exactly the neurons whose
    layer and area equal the key's. *)
Theorem raw_transforms_shape (train_seq_len : Z) (stats_source : string)
  (dataset : Dataset) (neurons : Neurons) (key_layer key_area : string)
  (tier : option string) (exclude : option (list string)) :
  length (layer neurons) = length (area neurons) ->
  exists idx,
    subsample_idx neurons key_layer key_area = Ok idx /\
    (forall i, In i idx <->
               nth_error (layer neurons) i = Some key_layer /\
               nth_error (area neurons) i = Some key_area) /\
    raw_transforms train_seq_len stats_source dataset neurons
      key_layer key_area tier exclude
    = Ok ((if tier_is tier "train" then [Subsequence train_seq_len] else [])
          ++ [Normalizer dataset stats_source exclude;
              Subsample idx; ToTensor]).
Proof.
  intros Hlen.
  assert (Hm : length (Np.eq_str (layer neurons) key_layer)
               = length (Np.eq_str (area neurons) key_area))
    by (unfold Np.eq_str; rewrite !length_map; exact Hlen).
  unfold raw_transforms, subsample_idx, Np.and_.
  rewrite (broadcast_same _ _ _ Hm); cbn [bind].
  eexists; split; [reflexivity|]; split.
  - intros i; unfold Np.where_; rewrite where_from_In, Nat.sub_0_r.
    pose proof (nth_zip_with andb _ _ false false i Hm) as E.
    cbn [andb] in E; rewrite E, andb_true_iff, !nth_eq_str.
    split; [tauto | intros H; split; [lia | exact H]].
  - unfold add_transforms; destruct (tier_is tier "train"); reflexivity.
Qed.

Lemma raw_transforms_shape_witness :
  exists idx,
    subsample_idx (mkNeurons ["L2/3"; "L4"; "L2/3"]%string
                               ["V1"; "V1"; "LM"]%string)
      "L2/3" "V1" = Ok idx /\
    (forall i, In i idx <->
               nth_error ["L2/3"; "L4"; "L2/3"]%string i = Some "L2/3"%string /\
               nth_error ["V1"; "V1"; "LM"]%string i = Some "V1"%string) /\
    raw_transforms 150 "all" blank_fixture
      (mkNeurons ["L2/3"; "L4"; "L2/3"]%string
                               ["V1"; "V1"; "LM"]%string) "L2/3" "V1"
      (Some "train"%string) (Some ["inputs"; "responses"]%string)
    = Ok [Subsequence 150;
          Normalizer blank_fixture "all"
            (Some ["inputs"; "responses"]%string);
          Subsample idx; ToTensor].
Proof.
  exact (raw_transforms_shape 150 "all" blank_fixture
           (mkNeurons ["L2/3"; "L4"; "L2/3"]%string
                               ["V1"; "V1"; "LM"]%string)
           "L2/3" "V1" (Some "train"%string)
           (Some ["inputs"; "responses"]%string) eq_refl).
Defined.


(* ===================================================================== *)
(** * The size-matched split and the merged balance *)
(* ===================================================================== *)

Section SizeMatched.

Lemma sum_zip_or_disjoint (a b : Np.mask) :
  length a = length b ->
  disjoint a b = true ->
  Np.sum (zip_with orb a b) = Np.sum a + Np.sum b.
Proof.
  unfold disjoint; revert b; induction a as [|x a IH]; intros [|y b] Hl Hd;
    simpl in *; try discriminate; auto.
  apply andb_prop in Hd as [Hxy Hd].
  rewrite IH by (auto; lia).
  destruct x, y; simpl in *; try discriminate; lia.
Qed.

Lemma nth_zip_or (a b : Np.mask) (p : nat) :
  length a = length b ->
  nth p (zip_with orb a b) false = nth p a false || nth p b false.
Proof. intros H; exact (nth_zip_with orb a b false false p H). Qed.

End SizeMatched.

(** [X29] The size-matched split: for two disjoint masks of one trial
    count with expressions without union, followed by the mask of their
    union with a union expression, the size equaliser keeps the first
    [min_n] trials of each of the two masks, [min_n] being the smaller of
    their cardinalities, and returns for the union mask exactly the union
    of the two truncated masks, with [2 * min_n] selected trials. *)
Theorem equalize_size_matched_split (tier : option string)
  (m1 m2 : Np.mask) (s1 s2 s3 : string) :
  tier_qualifies tier = true ->
  length m1 = length m2 ->
  disjoint m1 m2 = true ->
  contains "|" s1 = false ->
  contains "|" s2 = false ->
  contains "|" s3 = true ->
  let min_n := Nat.min (Np.sum m1) (Np.sum m2) in
  let o1 := truncate min_n m1 in
  let o2 := truncate min_n m2 in
  shrink tier [m1; m2; zip_with orb m1 m2] [s1; s2; s3]
  = Ok [o1; o2; zip_with orb o1 o2] /\
  Np.sum o1 = min_n /\ Np.sum o2 = min_n /\
  Np.sum (zip_with orb o1 o2) = 2 * min_n.
Proof.
  intros Htier Hlen Hdis H1 H2 H3 min_n o1 o2.
  set (m3 := zip_with orb m1 m2).
  assert (Hl3 : length m3 = length m1)
    by (unfold m3; apply zip_with_length; exact Hlen).
  assert (Hs3 : Np.sum m3 = Np.sum m1 + Np.sum m2)
    by (apply sum_zip_or_disjoint; assumption).
  assert (Hmin : Np.min (map Np.sum [m1; m2; m3]) = Ok min_n).
  { simpl; rewrite Hs3; f_equal; unfold min_n; lia. }
  assert (Hshape : Forall (fun c => length c = length m1) [m1; m2; m3])
    by (repeat constructor; congruence).
  assert (Ho1 : resolve min_n s1 m1 = o1)
    by (unfold resolve; rewrite H1; reflexivity).
  assert (Ho2 : resolve min_n s2 m2 = o2)
    by (unfold resolve; rewrite H2; reflexivity).
  assert (Hlo1 : length o1 = length m1) by apply truncate_length.
  assert (Hlo2 : length o2 = length m2) by apply truncate_length.
  split.
  - unfold shrink; rewrite Htier, Hmin; cbn [bind].
    rewrite (shrink_loop_pure (length m1)) by exact Hshape.
    f_equal; cbn [shrink_pure map].
    rewrite (cascade_disjoint min_n s1 m1 m2) by (auto; congruence).
    rewrite Ho1, Ho2; f_equal; f_equal.
    unfold resolve at 1; rewrite H3; cbn [negb].
    f_equal.
    pose proof (untouched_length min_n s1 m1) as Hu1.
    pose proof (untouched_length min_n s2 m2) as Hu2.
    rewrite Ho1 in Hu1; rewrite Ho2 in Hu2.
    assert (Hc1 : length (zip_with andb m3 (Np.eq_mask m1 o1)) = length m1)
      by (rewrite zip_with_length; congruence).
    assert (Hc2 : length (zip_with andb
                            (zip_with andb m3 (Np.eq_mask m1 o1))
                            (Np.eq_mask m2 o2)) = length m1)
      by (rewrite zip_with_length; congruence).
    assert (Hor : length (zip_with orb o1 o2) = length m1)
      by (rewrite zip_with_length; congruence).
    apply (nth_ext _ _ false false); [congruence|].
    intros p _.
    rewrite cascade_at by congruence.
    rewrite cascade_at by congruence.
    rewrite <- Ho1 at 1; rewrite <- Ho2 at 1.
    rewrite !untouched_at, Ho1, Ho2.
    unfold m3; rewrite !nth_zip_or by congruence.
    pose proof (disjoint_at _ _ p Hdis) as Hp.
    pose proof (truncate_at min_n m1 p) as Hsub1.
    pose proof (truncate_at min_n m2 p) as Hsub2.
    fold o1 in Hsub1; fold o2 in Hsub2.
    destruct (nth p m1 false), (nth p m2 false), (nth p o1 false),
      (nth p o2 false); simpl in *; try reflexivity; try discriminate;
      try discriminate (Hsub1 eq_refl); discriminate (Hsub2 eq_refl).
  - assert (Hd : disjoint o1 o2 = true).
    { unfold disjoint; apply forallb_forall; intros [x y] Hin.
      apply In_nth with (d := (false, false)) in Hin as (p & Hp & Hxy).
      rewrite combine_nth in Hxy by congruence.
      inversion Hxy; subst; simpl.
      pose proof (disjoint_at _ _ p Hdis) as Hm.
      pose proof (truncate_at min_n m1 p) as Hsub1.
      pose proof (truncate_at min_n m2 p) as Hsub2.
      fold o1 in Hsub1; fold o2 in Hsub2.
      destruct (nth p o1 false), (nth p o2 false); try reflexivity.
      rewrite (Hsub1 eq_refl), (Hsub2 eq_refl) in Hm; discriminate. }
    assert (E1 : Np.sum o1 = min_n)
      by (unfold o1; rewrite truncate_sum; unfold min_n; lia).
    assert (E2 : Np.sum o2 = min_n)
      by (unfold o2; rewrite truncate_sum; unfold min_n; lia).
    split; [exact E1|]; split; [exact E2|].
    rewrite sum_zip_or_disjoint by (auto; congruence); lia.
Qed.

Lemma equalize_size_matched_split_witness :
  shrink (Some "train"%string)
    [[true; true; true; false]; [false; false; false; true];
     [true; true; true; true]] split_types
  = Ok [[true; false; false; false]; [false; false; false; true];
        [true; false; false; true]] /\
  Np.sum [true; false; false; false] = 1 /\
  Np.sum [false; false; false; true] = 1 /\
  Np.sum [true; false; false; true] = 2 * 1.
Proof.
  exact (equalize_size_matched_split (Some "train"%string)
           [true; true; true; false] [false; false; false; true]
           "stimulus.Clip" "~stimulus.Clip" "stimulus.Clip|~stimulus.Clip"
           eq_refl eq_refl eq_refl eq_refl eq_refl eq_refl).
Defined.

Section MergedBalance.

Lemma count_two_labels (l : list string) (A B : string) :
  A <> B ->
  Forall (fun x => x = A \/ x = B) l ->
  count_occ string_dec l A + count_occ string_dec l B = length l.
Proof.
  intros Hne H; induction H as [|x l Hx _ IH]; simpl; [reflexivity|].
  destruct Hx as [-> | ->].
  - destruct (string_dec A A); [|congruence].
    destruct (string_dec A B); [congruence|]; lia.
  - destruct (string_dec B A); [congruence|].
    destruct (string_dec B B); [|congruence]; lia.
Qed.

Lemma merge_noise_labels (t : string) :
  merge_noise t = "Clip"%string \/ merge_noise t = "Noise"%string.
Proof. unfold merge_noise; destruct (String.eqb t _); auto. Qed.

End MergedBalance.

(** [X30] With merged noise types the balanced sampler of [get_loaders]
    balances two categories only, the clips and everything else: every
    selected trial is labelled [Clip] or [Noise], and the length of the
    sampler is the number of selected trials of the rarer of the two
    categories, or of the only category that is present. *)
Theorem merged_balance_two_categories (types sel : list string)
  (ix : list nat) :
  Np.take (map merge_noise types) ix = Ok sel ->
  ix <> [] ->
  let a := count_occ string_dec sel "Clip"%string in
  let b := count_occ string_dec sel "Noise"%string in
  a + b = length ix /\
  exists s,
    BalancedSubsetSampler_init ix (map merge_noise types) "shortest" = Ok s /\
    BalancedSubsetSampler_len s
    = Ok (if a =? 0 then b else if b =? 0 then a else Nat.min a b).
Proof.
  intros Htake Hne a b.
  assert (Hlen : length sel = length ix)
    by (eapply mapM_length; exact Htake).
  assert (Hlab : Forall (fun x => x = "Clip"%string \/ x = "Noise"%string)
                   sel).
  { pose proof (take_members _ _ _ Htake) as Hmem.
    revert Hmem; apply Forall_impl; intros x Hx.
    apply in_map_iff in Hx as (t & <- & _); apply merge_noise_labels. }
  assert (Hab : a + b = length sel)
    by (apply count_two_labels; [discriminate | exact Hlab]).
  split; [congruence|].
  assert (Hsel : sel <> [])
    by (intros ->; destruct ix; [congruence | discriminate]).
  destruct (np_min_spec _ (values_Counter_not_nil sel Hsel))
    as (m & Hmin & Hin & Hle).
  rewrite (init_unfold _ _ _ _ Htake); cbn [String.eqb Ascii.eqb Bool.eqb].
  rewrite Hmin; cbn [bind fst snd].
  eexists; split; [reflexivity|].
  unfold BalancedSubsetSampler_len; cbn [num_samples]; f_equal.
  apply values_Counter in Hin as (e & He & Hm).
  rewrite Forall_forall in Hle, Hlab.
  assert (Hbound : forall e', In e' sel -> m <= count_occ string_dec sel e').
  { intros e' He'; apply Hle, values_Counter; exists e'; auto. }
  assert (Hpos : 1 <= m)
    by (rewrite Hm; apply (count_occ_In string_dec) in He; lia).
  destruct (a =? 0) eqn:Ea; [apply Nat.eqb_eq in Ea | apply Nat.eqb_neq in Ea].
  - destruct (Hlab e He) as [-> | ->]; [fold a in Hm; lia | exact Hm].
  - destruct (b =? 0) eqn:Eb;
      [apply Nat.eqb_eq in Eb | apply Nat.eqb_neq in Eb].
    + destruct (Hlab e He) as [-> | ->]; [exact Hm | fold b in Hm; lia].
    + assert (Ha : m <= a)
        by (apply Hbound, (count_occ_In string_dec); fold a; lia).
      assert (Hb : m <= b)
        by (apply Hbound, (count_occ_In string_dec); fold b; lia).
      destruct (Hlab e He) as [-> | ->]; fold a b in Hm; lia.
Qed.

Lemma merged_balance_two_categories_witness :
  2 + 2 = 4 /\
  exists s,
    BalancedSubsetSampler_init [0; 1; 2; 3]
      (map merge_noise
         ["stimulus.Clip"; "stimulus.Monet2"; "stimulus.Trippy";
          "stimulus.Clip"]%string) "shortest" = Ok s /\
    BalancedSubsetSampler_len s = Ok 2.
Proof.
  apply (merged_balance_two_categories
           ["stimulus.Clip"; "stimulus.Monet2"; "stimulus.Trippy";
            "stimulus.Clip"]%string
           ["Clip"; "Noise"; "Noise"; "Clip"]%string [0; 1; 2; 3]).
  - reflexivity.
  - discriminate.
Defined.
